(** * vector_bool.cpp: pre-faulting allocator, workload, toggle loops, timer

    A shallow embedding of [src/vector_bool.cpp].  Machine integers are [Z]
    with their wrap-around written out, buffers are lists of bytes, and the
    parts of the environment the program talks to (the system allocator, the
    random engine, the clock, standard output) are explicit state. *)

From Stdlib Require Import ZArith Lia QArith String DecimalString.
From stdpp Require Import base list.

Local Open Scope Z_scope.

(** ** [std::size_t] *)

Module SizeT.

(** [std::numeric_limits<std::size_t>::max()] on the LP64 target the
    benchmark is built for. *)
Definition SIZE_MAX : Z := 2 ^ 64 - 1.

(** Unsigned arithmetic is performed modulo [SIZE_MAX + 1]. *)
Definition wrap (x : Z) : Z := x mod (SIZE_MAX + 1).

End SizeT.

(** ** [PreFaultAllocator<T>] *)

Module Allocator.
Import SizeT.

(** The only exception type [allocate] throws. *)
Inductive exn : Type := bad_alloc.

Inductive outcome (A : Type) : Type :=
| Returned (a : A)
| Thrown (e : exn).
Arguments Returned {A} a.
Arguments Thrown {A} e.

(** The system allocator behind [std::malloc].  [avail bytes] tells whether
    a request of that size is satisfied, [fresh k] is the indeterminate
    content of byte [k] of a block just handed out, and [requested] logs the
    sizes [malloc] has been called with, oldest first. *)
Record Heap : Type := mkHeap {
  avail : Z -> bool;
  fresh : nat -> Z;
  requested : list Z
}.

Definition log_request (bytes : Z) (h : Heap) : Heap :=
  {| avail := avail h; fresh := fresh h;
     requested := requested h ++ [bytes] |}.

(** [std::malloc(bytes)]: a null pointer ([None]) or a block of [bytes]
    bytes of indeterminate content. *)
Definition malloc (bytes : Z) (h : Heap) : option (list Z) * Heap :=
  (if avail h bytes
   then Some (map (fun k => fresh h k mod 256) (seq 0 (Z.to_nat bytes)))
   else None,
   log_request bytes h).

(** [std::memset(p, c, n)]: stores [(unsigned char) c] into each of the
    first [n] bytes of the block.  Writing past the end of the block has no
    defined behaviour; the model stops at the end of the block. *)
Fixpoint memset (p : list Z) (c : Z) (n : nat) : list Z :=
  match n, p with
  | O, _ => p
  | S n', _ :: rest => (c mod 256) :: memset rest c n'
  | S _, [] => []
  end.

(** [T* allocate(std::size_t n)], with [sizeof_T] standing for
    [sizeof(T)].  The returned pointer is modelled by the content of the
    block it points to. *)
Definition allocate (sizeof_T n : Z) (h : Heap) : outcome (list Z) * Heap :=
  if n >? SIZE_MAX / sizeof_T then (Thrown bad_alloc, h)
  else
    let bytes_to_allocate := wrap (n * sizeof_T) in
    match malloc bytes_to_allocate h with
    | (Some p, h') =>
        (Returned (memset p 0 (Z.to_nat bytes_to_allocate)), h')
    | (None, h') => (Thrown bad_alloc, h')
    end.

(** Reading byte [k] of a block. *)
Definition read (p : list Z) (k : Z) : option Z :=
  if 0 <=? k then p !! Z.to_nat k else None.

(** A system allocator that serves requests of up to 64 KiB and hands
    out blocks whose bytes are not zero. *)
Definition page_heap : Heap :=
  {| avail := fun bytes => bytes <=? 65536;
     fresh := fun k => 170 + Z.of_nat k;
     requested := [] |}.

End Allocator.

(** ** The shared workload (lines 74-79 of [main]) *)

Module Workload.
Import SizeT.

(** What [main] uses of [<random>]: an engine built from a seed
    ([std::mt19937 gen(seed)]) and the call [distrib(gen)] of a
    [std::uniform_int_distribution<size_t> distrib(a, b)], which returns a
    value and advances the engine.  The standard promises [a <= v <= b]
    for a distribution constructed with [a <= b]. *)
Class UniformSource (G : Type) : Type := {
  seed_engine : Z -> G;
  uniform_int : Z -> Z -> G -> Z * G;
  uniform_int_range :
    forall a b g, a <= b -> a <= (uniform_int a b g).1 <= b
}.

Section Generate.
Context {G : Type} `{UniformSource G}.

(** [indices[i] = distrib(gen);] *)
Definition fill_step (a b : Z) (st : list Z * G) (i : nat) : list Z * G :=
  let '(v, g') := uniform_int a b st.2 in (<[i := v]> st.1, g').

(** [for (size_t i = 0; i < ACCESS_COUNT; ++i) indices[i] = distrib(gen);] *)
Definition fill (a b : Z) (accessCount : nat) (st : list Z * G)
  : list Z * G :=
  fold_left (fill_step a b) (seq 0 accessCount) st.

(** Lines 74-79 with the two constants and the seed as arguments.
    [indices] starts as [ACCESS_COUNT] zeros; the distribution is built
    over [[0, ITEM_COUNT - 1]], the subtraction being a [size_t] one.
    [None] stands for a distribution constructed against its precondition
    [a <= b].  This is the part of the generation that cannot throw; the
    constructions of lines 74 and 75 that can are in
    [Generation.generate_in]. *)
Definition generate (itemCount accessCount seed : Z) : option (list Z) :=
  let indices := replicate (Z.to_nat accessCount) 0 in
  let gen := seed_engine seed in
  let a := 0 in
  let b := wrap (itemCount - 1) in
  if a <=? b
  then Some (fill a b (Z.to_nat accessCount) (indices, gen)).1
  else None.

(** [std::random_device]: [rd k] is the value of its [k]-th call. *)
Definition random_device : Type := nat -> Z.

(** [std::mt19937 gen(std::random_device{}());] followed by the fill
    loop: the seed is the first value of the entropy source. *)
Definition generate_from (rd : random_device) (itemCount accessCount : Z)
  : option (list Z) :=
  generate itemCount accessCount (rd 0%nat).
End Generate.

(** A small source that satisfies the interface: the engine of
    [std::minstd_rand] with a distribution that reduces the engine's
    output into [[a, b]]. *)
Definition minstd_next (x : Z) : Z := (48271 * x) mod 2147483647.

Definition minstd_uniform (a b x : Z) : Z * Z :=
  let x' := minstd_next x in
  (if a <=? b then a + x' mod (b - a + 1) else a, x').

Lemma minstd_uniform_range a b x :
  a <= b -> a <= (minstd_uniform a b x).1 <= b.
Proof.
  intros Hab. unfold minstd_uniform. simpl.
  destruct (Z.leb_spec a b); [|lia].
  pose proof (Z.mod_pos_bound (minstd_next x) (b - a + 1)). lia.
Qed.

#[export] Instance minstd_source : UniformSource Z := {|
  seed_engine := fun seed => seed mod 2147483647;
  uniform_int := minstd_uniform;
  uniform_int_range := minstd_uniform_range
|}.

End Workload.

(** ** The two access loops (lines 93-97 and 110-114 of [main]) *)

Module Loop.

(** [for (size_t i = first; i < first + count; ++i) { idx = indices[i]; body }]
    over a state [S].  [None] is an access outside an array, for which C++
    defines no behaviour. *)
Fixpoint for_each_from {S : Type} (body : S -> Z -> option S)
    (indices : list Z) (count first : nat) (st : S) : option S :=
  match count with
  | O => Some st
  | Datatypes.S count' =>
      idx ← indices !! first;
      st' ← body st idx;
      for_each_from body indices count' (Datatypes.S first) st'
  end.

Definition for_each {S : Type} (body : S -> Z -> option S)
    (indices : list Z) (accessCount : Z) (st : S) : option S :=
  for_each_from body indices (Z.to_nat accessCount) 0 st.

(** The same loop as a left-to-right traversal of the index sequence. *)
Fixpoint run_list {S : Type} (body : S -> Z -> option S)
    (indices : list Z) (st : S) : option S :=
  match indices with
  | [] => Some st
  | idx :: rest => st' ← body st idx; run_list body rest st'
  end.

(** Every index of the workload addresses one of the [n] flags. *)
Definition valid_workload (n : Z) (indices : list Z) : Prop :=
  Forall (fun idx => 0 <= idx < n) indices.

(** How often [p] occurs in the index sequence. *)
Definition occurrences (p : Z) (indices : list Z) : nat :=
  length (filter (fun idx => idx = p) indices).

End Loop.

(** *** Case 2: one byte per flag *)

Module RawStore.
Import Allocator.

(** Conversion of an [int] to [uint8_t]. *)
Definition to_uint8 (x : Z) : Z := x mod 256.

Record state : Type := mkState { raw_mem : list Z; sink : bool }.

(** [raw_mem[idx] = 1 - raw_mem[idx]; sink = (raw_mem[idx] != 0);] *)
Definition toggle (st : state) (idx : Z) : option state :=
  b ← read (raw_mem st) idx;
  let raw_mem' := <[Z.to_nat idx := to_uint8 (1 - b)]> (raw_mem st) in
  b' ← read raw_mem' idx;
  Some {| raw_mem := raw_mem'; sink := negb (b' =? 0) |}.

Definition access_loop (indices : list Z) (accessCount : Z) (st : state)
  : option state :=
  Loop.for_each toggle indices accessCount st.

(** The boolean a byte stands for, as the loop reads it. *)
Definition flag (st : state) (p : Z) : option bool :=
  b ← read (raw_mem st) p; Some (negb (b =? 0)).

Definition logical_state (itemCount : nat) (st : state) : list (option bool) :=
  map (fun p => flag st (Z.of_nat p)) (seq 0 itemCount).

Definition is_bit (b : Z) : Prop := b = 0 \/ b = 1.

(** What the loop keeps true of the buffer: its size, and every byte a
    0 or a 1. *)
Definition raw_inv (n : Z) (st : state) : Prop :=
  Z.of_nat (length (raw_mem st)) = n /\ Forall is_bit (raw_mem st).

(** Case 2 up to the end of the timed loop: [allocate(ITEM_COUNT)] on
    [PreFaultAllocator<uint8_t>], then the loop.  [Returned None] is a run
    that left defined behaviour. *)
Definition case2 (itemCount accessCount : Z) (indices : list Z) (h : Heap)
  : outcome (option state) :=
  match allocate 1 itemCount h with
  | (Returned raw_mem0, _) =>
      Returned
        (access_loop indices accessCount {| raw_mem := raw_mem0; sink := false |})
  | (Thrown e, _) => Thrown e
  end.

End RawStore.

(** *** Case 1: [std::vector<bool>] *)

Module PackedStore.

(** Modelled from the spec: [std::vector<bool>] belongs to the standard
    library and is not part of the repository.  Sections 3, 4.5 and 9 of
    the specification describe it: [size] flags kept in storage blocks of
    [w] flags each, flag [i] at offset [i % w] of block [i / w], read by
    mask-and-test and written by a read-modify-write of that block. *)
Record bit_vector : Type := mkBits { size : Z; blocks : list Z }.

Section Width.
Variable w : Z.

Definition block_index (i : Z) : nat := Z.to_nat (i / w).
Definition bit_offset (i : Z) : Z := i mod w.
Definition mask (i : Z) : Z := Z.shiftl 1 (bit_offset i).

(** Complement of a block, within its [w] bits. *)
Definition block_not (m : Z) : Z := Z.lxor m (Z.ones w).

Definition block_count (n : Z) : nat := Z.to_nat ((n + w - 1) / w).

(** [std::vector<bool> v(n)]: [n] flags, all false. *)
Definition create (n : Z) : bit_vector :=
  {| size := n; blocks := replicate (block_count n) 0 |}.

(** Modelled from the spec: [getFlag(i)], the read [v[i]]. *)
Definition getFlag (v : bit_vector) (i : Z) : option bool :=
  if (0 <=? i) && (i <? size v) then
    blk ← blocks v !! block_index i;
    Some (negb (Z.land blk (mask i) =? 0))
  else None.

(** Modelled from the spec: [setFlag(i, x)], the assignment [v[i] = x]. *)
Definition setFlag (v : bit_vector) (i : Z) (x : bool) : option bit_vector :=
  if (0 <=? i) && (i <? size v) then
    blk ← blocks v !! block_index i;
    let blk' :=
      if x then Z.lor blk (mask i) else Z.land blk (block_not (mask i)) in
    Some {| size := size v; blocks := <[block_index i := blk']> (blocks v) |}
  else None.

(** The blocks hold room for every flag. *)
Definition well_formed (v : bit_vector) : Prop :=
  size v <= w * Z.of_nat (length (blocks v)).

Record state : Type := mkState { bool_vec : bit_vector; sink : bool }.

(** What the loop keeps true of the vector: its size, and room for
    every flag. *)
Definition packed_inv (n : Z) (st : state) : Prop :=
  size (bool_vec st) = n /\ well_formed (bool_vec st).

Definition flag (st : state) (p : Z) : option bool := getFlag (bool_vec st) p.

Definition logical_state (itemCount : nat) (st : state) : list (option bool) :=
  map (fun p => flag st (Z.of_nat p)) (seq 0 itemCount).

(** [bool_vec[idx] = !bool_vec[idx]; sink = bool_vec[idx];] *)
Definition toggle (st : state) (idx : Z) : option state :=
  x ← getFlag (bool_vec st) idx;
  v' ← setFlag (bool_vec st) idx (negb x);
  x' ← getFlag v' idx;
  Some {| bool_vec := v'; sink := x' |}.

Definition access_loop (indices : list Z) (accessCount : Z) (st : state)
  : option state :=
  Loop.for_each toggle indices accessCount st.

(** Case 1 up to the end of the timed loop. *)
Definition case1 (itemCount accessCount : Z) (indices : list Z)
  : option state :=
  access_loop indices accessCount
    {| bool_vec := create itemCount; sink := false |}.
End Width.

End PackedStore.

(** [constexpr size_t ITEM_COUNT = 8096;] *)
Definition ITEM_COUNT : Z := 8096.
(** [constexpr size_t ACCESS_COUNT = 20'000'000;] *)
Definition ACCESS_COUNT : Z := 20000000.

(** ** [class Timer] *)

Module Timer.
Import Allocator.

(** What a timed region can do to the outside: read
    [std::chrono::high_resolution_clock] and write lines to [std::cout].
    [clock k] is the [k]-th reading of the clock since the program started,
    as a count of nanoseconds; [reads] counts the readings taken so far;
    [out] holds the lines written so far, oldest first. *)
Record World : Type := mkWorld {
  clock : nat -> Z;
  reads : nat;
  out : list string
}.

(** Code running in that world: it returns, throws, reads the clock or
    prints a line and goes on. *)
Inductive prog (A : Type) : Type :=
| Ret (a : A)
| Throw (e : exn)
| Now (k : Z -> prog A)
| Emit (line : string) (k : prog A).
Arguments Ret {A} a.
Arguments Throw {A} e.
Arguments Now {A} k.
Arguments Emit {A} line k.

Fixpoint bind {A B : Type} (m : prog A) (f : A -> prog B) : prog B :=
  match m with
  | Ret a => f a
  | Throw e => Throw e
  | Now k => Now (fun t => bind (k t) f)
  | Emit line k => Emit line (bind k f)
  end.

(** Leaving a scope that holds an object with a destructor: [dtor] runs
    when [body] returns and also when an exception leaves [body], after
    which the exception goes on to the enclosing handler. *)
Fixpoint at_scope_exit {A : Type} (body : prog A) (dtor : prog unit) : prog A :=
  match body with
  | Ret a => bind dtor (fun _ => Ret a)
  | Throw e => bind dtor (fun _ => Throw e)
  | Now k => Now (fun t => at_scope_exit (k t) dtor)
  | Emit line k => Emit line (at_scope_exit k dtor)
  end.

Fixpoint run {A : Type} (m : prog A) (w : World) : outcome A * World :=
  match m with
  | Ret a => (Returned a, w)
  | Throw e => (Thrown e, w)
  | Now k =>
      run (k (clock w (reads w)))
          {| clock := clock w; reads := S (reads w); out := out w |}
  | Emit line k =>
      run k {| clock := clock w; reads := reads w; out := out w ++ [line] |}
  end.

Section Report.
(** How [operator<<] writes a [double]; the text of the number is left
    open. *)
Variable show_double : Q -> string.

Record timer : Type := mkTimer { name_ : string; start_time_ : Z }.

(** [Timer(const std::string& name)] *)
Definition Timer_ctor (name : string) : prog timer :=
  Now (fun t => Ret {| name_ := name; start_time_ := t |}).

(** [double ms = duration / 1e6;] as the exact quotient. *)
Definition to_ms (duration : Z) : Q := inject_Z duration / inject_Z 1000000.

Definition report_line (name : string) (ms : Q) : string :=
  ("[" ++ name ++ "] took " ++ show_double ms ++ " ms.")%string.

(** [~Timer()] *)
Definition Timer_dtor (t : timer) : prog unit :=
  Now (fun end_time =>
    let duration := end_time - start_time_ t in
    let ms := to_ms duration in
    Emit (report_line (name_ t) ms) (Ret tt)).

(** [{ Timer timer(name); body }] *)
Definition timed_scope {A : Type} (name : string) (body : prog A) : prog A :=
  bind (Timer_ctor name) (fun t => at_scope_exit body (Timer_dtor t)).
End Report.

(** The clock never runs backwards. *)
Definition monotonic (clk : nat -> Z) : Prop :=
  forall i j : nat, (i <= j)%nat -> clk i <= clk j.

(** A world whose clock advances by 250 ns from one reading to the next,
    and a way of writing numbers as a fraction. *)
Definition steady_world : World :=
  {| clock := fun k => 1000 + 250 * Z.of_nat k; reads := 0; out := [] |}.

(** A world whose clock is set back by 250 ns between one reading and the
    next, as a wall clock can be while it is being adjusted. *)
Definition backward_world : World :=
  {| clock := fun k => 1000 - 250 * Z.of_nat k; reads := 0; out := [] |}.

Definition show_fraction (q : Q) : string :=
  (NilZero.string_of_int (Z.to_int (Qnum q)) ++ "/"
   ++ NilZero.string_of_uint (Pos.to_uint (Qden q)))%string.

End Timer.

(** ** [main] *)

Module Main.
Import SizeT Allocator Workload Timer.

(** How [main] ends when no exception leaves it: with the value it returns,
    or outside defined behaviour. *)
Inductive status : Type :=
| Exit (code : Z)
| Undefined.

(** [std::cout << n] for a [size_t]. *)
Definition show_size (n : Z) : string := NilZero.string_of_int (Z.to_int n).

(** The values of successive calls [distrib(gen)], first call first. *)
Fixpoint draws {G : Type} `{UniformSource G} (a b : Z) (k : nat) (g : G)
  : list Z :=
  match k with
  | O => []
  | S k' => let '(v, g') := uniform_int a b g in v :: draws a b k' g'
  end.

Section Program.
Context {G : Type} `{UniformSource G}.
Variable show_double : Q -> string.

(** [sizeof] of the block type [std::vector<bool>] stores its flags in; a
    block then holds eight flags per byte. *)
Variable block_bytes : Z.

Definition block_width : Z := 8 * block_bytes.

(** Case 1, lines 104-115.  The vector gets its blocks from
    [PreFaultAllocator], one [allocate] call for all of them (the comment on
    lines 105-106), before the timer is constructed; [sink] still holds what
    case 2 left in it. *)
Definition case1_block (itemCount accessCount : Z) (indices : list Z)
    (sink0 : bool) (h : Heap) : prog status :=
  match allocate block_bytes
          (Z.of_nat (PackedStore.block_count block_width itemCount)) h with
  | (Thrown e, _) => Throw e
  | (Returned _, _) =>
      bind
        (timed_scope show_double "Case 1: std::vector<bool>"
           (Ret (PackedStore.access_loop block_width indices accessCount
                   {| PackedStore.bool_vec :=
                        PackedStore.create block_width itemCount;
                      PackedStore.sink := sink0 |})))
        (fun r =>
           match r with
           | Some _ => Emit EmptyString (Ret (Exit 0))
           | None => Ret Undefined
           end)
  end.

(** Case 2, lines 86-101, followed by the rest of [main].  [allocate] runs
    before the timer is constructed and [deallocate] after it is destroyed;
    [std::free] has no effect on this model of the system allocator, which
    serves a request by its size alone. *)
Definition case2_block (itemCount accessCount : Z) (indices : list Z)
    (h : Heap) : prog status :=
  match allocate 1 itemCount h with
  | (Thrown e, _) => Throw e
  | (Returned raw_mem0, h') =>
      bind
        (timed_scope show_double "Case 2: Raw Memory (uint8_t*)"
           (Ret (RawStore.access_loop indices accessCount
                   {| RawStore.raw_mem := raw_mem0; RawStore.sink := false |})))
        (fun r =>
           match r with
           | Some st => case1_block itemCount accessCount indices
                          (RawStore.sink st) h'
           | None => Ret Undefined
           end)
  end.

(** [int main()], lines 68-121, with [ITEM_COUNT] and [ACCESS_COUNT] as
    arguments.  [Emit line] is [std::cout << line << std::endl]; the text
    ["Done generating indices.\n"] followed by [std::endl] makes two lines,
    the second one empty. *)
Definition main_with (itemCount accessCount : Z) (rd : random_device)
    (h : Heap) : prog status :=
  Emit ("Generating " ++ show_size accessCount ++ " random indices...")%string
    (match generate_from rd itemCount accessCount with
     | Some indices =>
         Emit "Done generating indices."
           (Emit EmptyString (case2_block itemCount accessCount indices h))
     | None => Ret Undefined
     end).

Definition main (rd : random_device) (h : Heap) : prog status :=
  main_with ITEM_COUNT ACCESS_COUNT rd h.
End Program.

End Main.

(** ** The generation with the constructions that can throw *)

Module Generation.
Import SizeT Workload.

(** The exceptions that can leave lines 74-79: [std::length_error] and
    [std::bad_alloc] from the constructor of [std::vector<size_t>], and the
    exception [std::random_device] throws when no entropy source is
    available. *)
Inductive failure : Type :=
| vector_length_error
| vector_bad_alloc
| random_device_error.

Inductive gen_outcome : Type :=
| Generated (indices : list Z)
| Threw (e : failure)
| PreconditionViolated.

(** What the generation meets outside the program: the [max_size()] of
    [std::vector<size_t>], whether [operator new] serves a request of a given
    number of bytes, and the entropy source, [None] when [std::random_device]
    cannot be constructed. *)
Record Env : Type := mkEnv {
  vector_max_size : Z;
  new_avail : Z -> bool;
  entropy : option random_device
}.

(** [sizeof(std::size_t)] on the LP64 target. *)
Definition sizeof_size_t : Z := 8.

(** [std::vector<size_t> indices(ACCESS_COUNT);] (line 74): the constructor
    throws [std::length_error] for a count above [max_size()], asks
    [operator new] for the elements of a vector that is not empty, and throws
    [std::bad_alloc] when the request is refused.  [None]: constructed. *)
Definition construct_indices (env : Env) (accessCount : Z) : option failure :=
  if accessCount >? vector_max_size env then Some vector_length_error
  else if (0 <? accessCount)
          && negb (new_avail env (accessCount * sizeof_size_t))
  then Some vector_bad_alloc
  else None.

(** Lines 74-79 as [main] runs them: the vector, then the entropy source
    and the seeded engine, then the distribution and the fill loop. *)
Definition generate_in {G : Type} `{UniformSource G} (env : Env)
    (itemCount accessCount : Z) : gen_outcome :=
  match construct_indices env accessCount with
  | Some e => Threw e
  | None =>
      match entropy env with
      | None => Threw random_device_error
      | Some rd =>
          match generate_from rd itemCount accessCount with
          | Some indices => Generated indices
          | None => PreconditionViolated
          end
      end
  end.

(** The generation meets nothing that makes it throw. *)
Definition serves (env : Env) (accessCount : Z) : Prop :=
  accessCount <= vector_max_size env /\
  (0 < accessCount -> new_avail env (accessCount * sizeof_size_t) = true) /\
  is_Some (entropy env).

(** An environment with room for 2^20 bytes per request, and one with
    less room and another entropy source that starts with the same value. *)
Definition roomy_env : Env :=
  {| vector_max_size := 2 ^ 60 - 1;
     new_avail := fun bytes => bytes <=? 2 ^ 20;
     entropy := Some (fun k => 7 + Z.of_nat k) |}.

Definition narrow_env : Env :=
  {| vector_max_size := 1000;
     new_avail := fun bytes => bytes <=? 4096;
     entropy := Some (fun k => 7 - 3 * Z.of_nat k) |}.

End Generation.

(** * Properties *)

(** ** [std::size_t] arithmetic *)

Section SizeTFacts.
Import SizeT.

Lemma SIZE_MAX_pos : 0 < SIZE_MAX.
Proof. unfold SIZE_MAX. lia. Qed.

Lemma wrap_range x : 0 <= wrap x <= SIZE_MAX.
Proof.
  unfold wrap. pose proof SIZE_MAX_pos.
  pose proof (Z.mod_pos_bound x (SIZE_MAX + 1)). lia.
Qed.

Lemma wrap_small x : 0 <= x <= SIZE_MAX -> wrap x = x.
Proof. intros. unfold wrap. apply Z.mod_small. lia. Qed.

Lemma wrap_minus_one : wrap (0 - 1) = SIZE_MAX.
Proof. reflexivity. Qed.

(** The guard of [allocate] compares [n] with a quotient; this is the same
    as comparing the exact product with [SIZE_MAX]. *)
Lemma guard_iff_product (sizeof_T n : Z) :
  1 <= sizeof_T -> (n > SIZE_MAX / sizeof_T <-> SIZE_MAX < n * sizeof_T).
Proof.
  intros Hs.
  pose proof (Z.mul_div_le SIZE_MAX sizeof_T ltac:(lia)) as Hlo.
  pose proof (Z.mul_succ_div_gt SIZE_MAX sizeof_T ltac:(lia)) as Hhi.
  split; intros Hn; nia.
Qed.
End SizeTFacts.

(** ** The allocator *)

Section AllocatorFacts.
Import SizeT Allocator.

Lemma malloc_block h bytes p h' :
  malloc bytes h = (Some p, h') -> length p = Z.to_nat bytes.
Proof.
  unfold malloc. intros Hm. destruct (avail h bytes); inversion Hm; subst.
  rewrite length_map, length_seq. reflexivity.
Qed.

Lemma log_request_neq bytes h : log_request bytes h <> h.
Proof.
  intros Heq. apply (f_equal requested) in Heq. simpl in Heq.
  apply (f_equal length) in Heq. rewrite length_app in Heq. simpl in Heq. lia.
Qed.

Lemma memset_all p c :
  memset p c (length p) = replicate (length p) (c mod 256).
Proof. induction p as [|b p IH]; simpl; [reflexivity | rewrite IH; reflexivity]. Qed.

(** A request that passes the guard and is served: [malloc] is asked for
    the exact product and the block comes back zeroed from end to end. *)
Lemma allocate_success (h : Heap) (sizeof_T n : Z) :
  1 <= sizeof_T ->
  0 <= n <= SIZE_MAX / sizeof_T ->
  avail h (n * sizeof_T) = true ->
  allocate sizeof_T n h
  = (Returned (replicate (Z.to_nat (n * sizeof_T)) 0),
     log_request (n * sizeof_T) h).
Proof.
  intros Hs [Hn0 Hn] Hav.
  assert (Hprod : 0 <= n * sizeof_T <= SIZE_MAX).
  { pose proof (guard_iff_product sizeof_T n Hs). nia. }
  unfold allocate.
  destruct (Z.gtb_spec n (SIZE_MAX / sizeof_T)) as [Hgt|_]; [lia|].
  rewrite (wrap_small _ Hprod).
  destruct (malloc (n * sizeof_T) h) as [[p|] h'] eqn:Hm.
  - pose proof (malloc_block _ _ _ _ Hm) as Hlen.
    unfold malloc in Hm. rewrite Hav in Hm. injection Hm as _ <-.
    rewrite <- Hlen, memset_all. reflexivity.
  - unfold malloc in Hm. rewrite Hav in Hm. discriminate.
Qed.
End AllocatorFacts.

Section AllocatorTheorems.
Import SizeT Allocator.

(** C1.  When [n] passes the overflow guard and the system allocator
    serves the request, [allocate] returns a block of exactly
    [n * sizeof(T)] bytes, every one of which reads as zero, whatever the
    block held when [malloc] handed it out. *)
Theorem allocate_zero_filled (h : Heap) (sizeof_T n : Z) :
  1 <= sizeof_T ->
  0 <= n <= SIZE_MAX / sizeof_T ->
  avail h (n * sizeof_T) = true ->
  exists region h',
    allocate sizeof_T n h = (Returned region, h') /\
    Z.of_nat (length region) = n * sizeof_T /\
    forall k, 0 <= k < n * sizeof_T -> read region k = Some 0.
Proof.
  intros Hs Hn Hav.
  assert (0 <= n * sizeof_T) by nia.
  eexists _, _. split; [apply allocate_success; assumption|].
  split; [rewrite length_replicate; lia|].
  intros k Hk. unfold read. destruct (Z.leb_spec 0 k); [|lia].
  apply lookup_replicate_2. lia.
Qed.

Lemma allocate_zero_filled_witness :
  exists region h',
    allocate 4 3 page_heap = (Returned region, h') /\
    Z.of_nat (length region) = 3 * 4 /\
    forall k, 0 <= k < 3 * 4 -> read region k = Some 0.
Proof.
  apply (allocate_zero_filled page_heap 4 3).
  - lia.
  - split; [lia | apply Z.leb_le; reflexivity].
  - reflexivity.
Defined.

(** C2.  [allocate] throws at its guard, before the system allocator is
    asked for anything, exactly when the exact product [n * sizeof(T)]
    exceeds [SIZE_MAX]; otherwise the one request it makes to [malloc] is
    for exactly [n * sizeof(T)] bytes. *)
Theorem allocate_overflow_iff (h : Heap) (sizeof_T n : Z) :
  1 <= sizeof_T ->
  0 <= n ->
  (SIZE_MAX < n * sizeof_T <->
     allocate sizeof_T n h = (Thrown bad_alloc, h)) /\
  (n * sizeof_T <= SIZE_MAX ->
     requested (allocate sizeof_T n h).2 = requested h ++ [n * sizeof_T]).
Proof.
  intros Hs Hn0.
  pose proof (guard_iff_product sizeof_T n Hs) as Hg.
  unfold allocate.
  destruct (Z.gtb_spec n (SIZE_MAX / sizeof_T)) as [Hgt|Hle].
  - split; [split; [reflexivity | intros _; apply Hg; lia] | lia].
  - assert (Hprod : 0 <= n * sizeof_T <= SIZE_MAX) by nia.
    rewrite (wrap_small _ Hprod). unfold malloc.
    split.
    + split; [lia|]. intros Heq. exfalso.
      destruct (avail h (n * sizeof_T)); inversion Heq as [Hh];
        exact (log_request_neq _ _ Hh).
    + intros _. destruct (avail h (n * sizeof_T)); reflexivity.
Qed.

Lemma allocate_overflow_iff_witness :
  (SIZE_MAX < 2 ^ 62 * 8 <->
     allocate 8 (2 ^ 62) page_heap = (Thrown bad_alloc, page_heap)) /\
  (2 ^ 62 * 8 <= SIZE_MAX ->
     requested (allocate 8 (2 ^ 62) page_heap).2
     = requested page_heap ++ [2 ^ 62 * 8]).
Proof. apply (allocate_overflow_iff page_heap 8 (2 ^ 62)); lia. Defined.
End AllocatorTheorems.

(** ** The workload *)

Section WorkloadFacts.
Import SizeT Workload.
Context {G : Type} `{UniformSource G}.

(** What the fill loop over [first .. first + count - 1] leaves in
    [indices]: the length is kept, the slots it went over hold values of the
    distribution, the other slots are as before. *)
Lemma fill_from_spec (a b : Z) (count first : nat) (l : list Z) (g : G) :
  a <= b ->
  let r := fold_left (fill_step a b) (seq first count) (l, g) in
  length r.1 = length l /\
  forall (i : nat) (v : Z), r.1 !! i = Some v ->
    if decide (first <= i < first + count)%nat then a <= v <= b
    else l !! i = Some v.
Proof.
  intros Hab. revert first l g.
  induction count as [|count IH]; intros first l g; simpl.
  - split; [reflexivity|]. intros i v Hi. case_decide; [lia | assumption].
  - pose proof (uniform_int_range a b g Hab) as Hv.
    destruct (uniform_int a b g) as [v0 g'] eqn:Hu. simpl in Hv.
    assert (fill_step a b (l, g) first = (<[first:=v0]> l, g')) as ->
      by (unfold fill_step; simpl; rewrite Hu; reflexivity).
    destruct (IH (S first) (<[first:=v0]> l) g') as [Hlen Hval].
    split; [rewrite Hlen; apply length_insert|].
    intros i v Hi. specialize (Hval i v Hi).
    repeat case_decide; try lia; try assumption.
    + assert (i = first) as -> by lia.
      apply lookup_lt_Some in Hval as Hlt. rewrite length_insert in Hlt.
      rewrite list_lookup_insert_eq in Hval by assumption.
      injection Hval as <-. exact Hv.
    + rewrite list_lookup_insert_ne in Hval by lia. assumption.
Qed.

(** Generation has no failing path: the upper bound of the distribution is
    a [size_t], hence never below the lower bound [0]. *)
Lemma generate_Some (itemCount accessCount seed : Z) :
  exists indices,
    generate itemCount accessCount seed = Some indices /\
    length indices = Z.to_nat accessCount /\
    forall (i : nat) (v : Z), indices !! i = Some v ->
      0 <= v <= wrap (itemCount - 1).
Proof.
  unfold generate. pose proof (wrap_range (itemCount - 1)) as Hb.
  destruct (Z.leb_spec 0 (wrap (itemCount - 1))) as [Hab|]; [|lia].
  eexists. split; [reflexivity|].
  destruct (fill_from_spec 0 (wrap (itemCount - 1)) (Z.to_nat accessCount) 0
              (replicate (Z.to_nat accessCount) 0) (seed_engine seed) Hab)
    as [Hlen Hval].
  unfold fill. split.
  - rewrite Hlen. apply length_replicate.
  - intros i v Hi. specialize (Hval i v Hi).
    apply lookup_lt_Some in Hi. rewrite Hlen, length_replicate in Hi.
    case_decide; [assumption | lia].
Qed.
End WorkloadFacts.

Section WorkloadTheorems.
Import SizeT Workload.

(** C3.  For every [itemCount >= 1], [accessCount >= 0] and seed, the
    generated workload has exactly [accessCount] entries and each entry
    lies in [[0, itemCount)]. *)
Theorem generate_length_range {G : Type} `{UniformSource G}
    (itemCount accessCount seed : Z) :
  1 <= itemCount ->
  0 <= accessCount ->
  exists indices,
    generate itemCount accessCount seed = Some indices /\
    Z.of_nat (length indices) = accessCount /\
    forall (i : nat) (v : Z), indices !! i = Some v -> 0 <= v < itemCount.
Proof.
  intros Hic Hac.
  destruct (generate_Some itemCount accessCount seed)
    as (indices & Hgen & Hlen & Hval).
  exists indices. split; [assumption|]. split; [lia|].
  intros i v Hi. specialize (Hval i v Hi).
  assert (wrap (itemCount - 1) <= itemCount - 1).
  { unfold wrap. apply Z.mod_le; [lia|]. pose proof SIZE_MAX_pos. lia. }
  lia.
Qed.

Lemma generate_length_range_witness :
  exists indices,
    generate (G := Z) 8 4 1 = Some indices /\
    Z.of_nat (length indices) = 4 /\
    forall (i : nat) (v : Z), indices !! i = Some v -> 0 <= v < 8.
Proof. apply (generate_length_range (G := Z) 8 4 1); lia. Defined.
End WorkloadTheorems.

(** ** The access loops *)

Section LoopFacts.
Import Loop.
Context {S : Type} (body : S -> Z -> option S).

(** Running [count] iterations from position [first] is a traversal of that
    stretch of the index sequence. *)
Lemma for_each_from_run_list (indices : list Z) (count first : nat) (st : S) :
  (first + count <= length indices)%nat ->
  for_each_from body indices count first st
  = run_list body (take count (drop first indices)) st.
Proof.
  revert first st. induction count as [|count IH]; intros first st Hlen.
  - reflexivity.
  - destruct (lookup_lt_is_Some_2 indices first ltac:(lia)) as [idx Hidx].
    simpl. rewrite Hidx, (drop_S _ _ _ Hidx). simpl.
    destruct (body st idx) as [st'|]; simpl; [|reflexivity].
    apply IH. lia.
Qed.

Lemma for_each_run_list (indices : list Z) (k : Z) (st : S) :
  0 <= k <= Z.of_nat (length indices) ->
  for_each body indices k st = run_list body (take (Z.to_nat k) indices) st.
Proof.
  intros Hk. unfold for_each.
  rewrite for_each_from_run_list by (simpl; lia). reflexivity.
Qed.

(** A loop whose body flips the flag it is given and leaves the others
    alone ends with each flag flipped as often as its position occurs. *)
Section Toggle.
Variable flag : S -> Z -> option bool.
Variable Inv : S -> Prop.
Variable n : Z.
Hypothesis body_flips : forall st idx,
  Inv st -> 0 <= idx < n ->
  exists st', body st idx = Some st' /\ Inv st' /\
    forall p, flag st' p
              = if decide (p = idx) then negb <$> flag st p else flag st p.

Lemma run_list_parity (indices : list Z) (st : S) :
  Inv st ->
  Forall (fun idx => 0 <= idx < n) indices ->
  exists st', run_list body indices st = Some st' /\ Inv st' /\
    forall p, flag st' p = xorb (Nat.odd (occurrences p indices)) <$> flag st p.
Proof.
  intros Hinv Hall. revert st Hinv.
  induction Hall as [|idx rest Hidx _ IH]; intros st Hinv.
  - exists st. split; [reflexivity|]. split; [assumption|].
    intros p. simpl. destruct (flag st p) as [[]|]; reflexivity.
  - destruct (body_flips st idx Hinv Hidx) as (st1 & Hb & Hinv1 & Hfl1).
    destruct (IH st1 Hinv1) as (st2 & Hrun & Hinv2 & Hfl2).
    exists st2. simpl. rewrite Hb. simpl. split; [assumption|].
    split; [assumption|]. intros p. rewrite Hfl2, Hfl1.
    unfold occurrences. rewrite filter_cons.
    case_decide; case_decide; try congruence.
    simpl length. rewrite Nat.odd_succ, <- Nat.negb_odd.
    destruct (flag st p) as [[]|]; simpl;
      destruct (Nat.odd (length (filter (fun i => i = p) rest)));
      reflexivity.
Qed.
End Toggle.
End LoopFacts.

(** ** Case 2: the byte store *)

Section RawStoreFacts.
Import Allocator RawStore.

Lemma to_uint8_flip b : is_bit b -> to_uint8 (1 - b) = 1 - b /\ is_bit (1 - b).
Proof. intros [-> | ->]; split; try reflexivity; unfold is_bit; lia. Qed.

Lemma read_in_range (p : list Z) (k : Z) :
  0 <= k < Z.of_nat (length p) -> exists b, read p k = Some b /\ p !! Z.to_nat k = Some b.
Proof.
  intros Hk. unfold read. destruct (Z.leb_spec 0 k); [|lia].
  destruct (lookup_lt_is_Some_2 p (Z.to_nat k) ltac:(lia)) as [b Hb].
  exists b. split; assumption.
Qed.

Lemma read_insert_ne (p : list Z) (i k v : Z) :
  0 <= i -> k <> i -> read (<[Z.to_nat i := v]> p) k = read p k.
Proof.
  intros Hi Hne. unfold read. destruct (Z.leb_spec 0 k); [|reflexivity].
  apply list_lookup_insert_ne. lia.
Qed.

(** One iteration: the byte at [idx] goes from 0 to 1 or from 1 to 0, the
    other bytes stay, and the invariant is kept. *)
Lemma raw_toggle_flips (n : Z) (st : state) (idx : Z) :
  raw_inv n st -> 0 <= idx < n ->
  exists st', toggle st idx = Some st' /\ raw_inv n st' /\
    forall p, flag st' p
              = if decide (p = idx) then negb <$> flag st p else flag st p.
Proof.
  intros [Hlen Hbits] Hidx.
  destruct (read_in_range (raw_mem st) idx ltac:(lia)) as (b & Hrd & Hlk).
  pose proof (proj1 (Forall_lookup _ _) Hbits _ _ Hlk) as Hb.
  destruct (to_uint8_flip b Hb) as [Hflip Hb'].
  assert (Hrd' : read (<[Z.to_nat idx := 1 - b]> (raw_mem st)) idx = Some (1 - b)).
  { unfold read. destruct (Z.leb_spec 0 idx); [|lia].
    apply list_lookup_insert_eq. lia. }
  unfold toggle. rewrite Hrd. simpl. rewrite Hflip, Hrd'. simpl.
  eexists. split; [reflexivity|]. split.
  - split; simpl; [rewrite length_insert; assumption|].
    apply Forall_insert; assumption.
  - intros p. unfold flag. simpl. case_decide as Hp.
    + subst p. rewrite Hrd', Hrd. simpl.
      destruct Hb as [-> | ->]; reflexivity.
    + rewrite read_insert_ne by lia. reflexivity.
Qed.

(** The buffer [allocate] returns satisfies the invariant and stands for
    all-false. *)
Lemma allocate_raw_inv (h : Heap) (n : Z) :
  0 <= n <= SizeT.SIZE_MAX -> avail h n = true ->
  exists raw_mem0 h',
    allocate 1 n h = (Returned raw_mem0, h') /\
    raw_inv n {| raw_mem := raw_mem0; sink := false |} /\
    forall p, 0 <= p < n ->
      flag {| raw_mem := raw_mem0; sink := false |} p = Some false.
Proof.
  intros Hn Hav.
  pose proof (allocate_success h 1 n ltac:(lia)) as Hal.
  rewrite Z.div_1_r, Z.mul_1_r in Hal. specialize (Hal Hn Hav).
  eexists _, _. split; [exact Hal|]. split.
  - split; simpl; [rewrite length_replicate; lia|].
    apply Forall_replicate. left. reflexivity.
  - intros p Hp. unfold flag, read. simpl.
    destruct (Z.leb_spec 0 p); [|lia].
    rewrite lookup_replicate_2 by lia. reflexivity.
Qed.
End RawStoreFacts.

(** ** Case 1: the packed store *)

Section BitFacts.

(** Testing a block against a one-bit mask reads that bit. *)
Lemma test_mask (blk o : Z) :
  0 <= o -> negb (Z.land blk (Z.shiftl 1 o) =? 0) = Z.testbit blk o.
Proof.
  intros Ho. rewrite Z.shiftl_1_l.
  destruct (Z.testbit blk o) eqn:Hbit.
  - destruct (Z.eqb_spec (Z.land blk (2 ^ o)) 0) as [Hz|]; [|reflexivity].
    apply (f_equal (fun z => Z.testbit z o)) in Hz.
    rewrite Z.land_spec, Z.bits_0, Hbit, Z.pow2_bits_eqb, Z.eqb_refl in Hz
      by assumption.
    discriminate.
  - assert (Z.land blk (2 ^ o) = 0) as ->; [|reflexivity].
    apply Z.bits_inj'. intros k Hk.
    rewrite Z.land_spec, Z.bits_0, Z.pow2_bits_eqb by assumption.
    destruct (Z.eqb_spec o k) as [<-|_]; [rewrite Hbit|];
      auto using andb_false_r.
Qed.

Lemma set_bit_spec (blk o k : Z) :
  0 <= o -> 0 <= k ->
  Z.testbit (Z.lor blk (Z.shiftl 1 o)) k = Z.testbit blk k || (o =? k).
Proof.
  intros Ho Hk. rewrite Z.shiftl_1_l, Z.lor_spec, Z.pow2_bits_eqb by assumption.
  reflexivity.
Qed.

Lemma clear_bit_spec (w blk o k : Z) :
  0 <= o < w -> 0 <= k < w ->
  Z.testbit (Z.land blk (PackedStore.block_not w (Z.shiftl 1 o))) k
  = Z.testbit blk k && negb (o =? k).
Proof.
  intros Ho Hk. unfold PackedStore.block_not.
  rewrite Z.shiftl_1_l, Z.land_spec, Z.lxor_spec, Z.pow2_bits_eqb by lia.
  rewrite Z.ones_spec_low by lia.
  destruct (o =? k); reflexivity.
Qed.
End BitFacts.

Section PackedStoreFacts.
Import PackedStore.
Variable w : Z.
Hypothesis w_pos : 1 <= w.

Lemma bit_offset_range i : 0 <= bit_offset w i < w.
Proof. unfold bit_offset. apply Z.mod_pos_bound. lia. Qed.

Lemma block_index_lt (v : bit_vector) (i : Z) :
  well_formed w v -> 0 <= i < size v ->
  (block_index w i < length (blocks v))%nat.
Proof.
  unfold well_formed, block_index. intros Hwf Hi.
  pose proof (Z.div_pos i w ltac:(lia) ltac:(lia)).
  pose proof (Z.div_lt_upper_bound i w (Z.of_nat (length (blocks v)))
                ltac:(lia) ltac:(lia)).
  lia.
Qed.

(** Two different flags of one block sit at different offsets. *)
Lemma same_block_offsets (i j : Z) :
  0 <= i -> 0 <= j -> i <> j ->
  block_index w i = block_index w j -> bit_offset w i <> bit_offset w j.
Proof.
  unfold block_index, bit_offset. intros Hi Hj Hne Hblk Hoff.
  pose proof (Z.div_pos i w ltac:(lia) ltac:(lia)).
  pose proof (Z.div_pos j w ltac:(lia) ltac:(lia)).
  pose proof (Z.div_mod i w ltac:(lia)).
  pose proof (Z.div_mod j w ltac:(lia)).
  assert (i / w = j / w) by lia. nia.
Qed.

Lemma getFlag_testbit (v : bit_vector) (i : Z) :
  0 <= i < size v ->
  getFlag w v i
  = blk ← blocks v !! block_index w i; Some (Z.testbit blk (bit_offset w i)).
Proof.
  intros Hi. unfold getFlag.
  destruct (Z.leb_spec 0 i); [|lia]. destruct (Z.ltb_spec i (size v)); [|lia].
  simpl. destruct (blocks v !! block_index w i) as [blk|]; [|reflexivity].
  simpl. unfold mask. rewrite test_mask by apply bit_offset_range.
  reflexivity.
Qed.

Lemma getFlag_outside (v : bit_vector) (i : Z) :
  ~ (0 <= i < size v) -> getFlag w v i = None.
Proof.
  intros Hi. unfold getFlag.
  destruct (Z.leb_spec 0 i); destruct (Z.ltb_spec i (size v));
    simpl; try reflexivity; lia.
Qed.

(** The block a write leaves behind, bit by bit. *)
Lemma written_block_bit (blk i : Z) (x : bool) (k : Z) :
  0 <= k < w ->
  Z.testbit
    (if x then Z.lor blk (mask w i) else Z.land blk (block_not w (mask w i))) k
  = if decide (k = bit_offset w i) then x else Z.testbit blk k.
Proof.
  intros Hk. pose proof (bit_offset_range i) as Ho. unfold mask.
  destruct x.
  - rewrite set_bit_spec by lia.
    case_decide as Hd; [subst k; rewrite Z.eqb_refl; apply orb_true_r|].
    destruct (Z.eqb_spec (bit_offset w i) k); [congruence | apply orb_false_r].
  - rewrite clear_bit_spec by lia.
    case_decide as Hd; [subst k; rewrite Z.eqb_refl; apply andb_false_r|].
    destruct (Z.eqb_spec (bit_offset w i) k); [congruence | apply andb_true_r].
Qed.

(** Writing flag [i]: the write succeeds, it is read back, every other
    flag reads as before, and only block [i / w] has changed. *)
Lemma setFlag_spec (v : bit_vector) (i : Z) (x : bool) :
  well_formed w v -> 0 <= i < size v ->
  exists v',
    setFlag w v i x = Some v' /\
    size v' = size v /\ well_formed w v' /\
    getFlag w v' i = Some x /\
    (forall j, j <> i -> getFlag w v' j = getFlag w v j) /\
    (forall k : nat, k <> block_index w i -> blocks v' !! k = blocks v !! k).
Proof.
  intros Hwf Hi. pose proof (block_index_lt v i Hwf Hi) as Hlt.
  destruct (lookup_lt_is_Some_2 _ _ Hlt) as [blk Hblk].
  unfold setFlag.
  destruct (Z.leb_spec 0 i); [|lia]. destruct (Z.ltb_spec i (size v)); [|lia].
  simpl. rewrite Hblk. simpl. eexists. split; [reflexivity|].
  split; [reflexivity|]. split.
  { unfold well_formed in *. simpl. rewrite length_insert. assumption. }
  split; [|split].
  - rewrite getFlag_testbit by (simpl; lia). simpl.
    rewrite list_lookup_insert_eq by assumption. simpl.
    rewrite written_block_bit by apply bit_offset_range.
    case_decide; [reflexivity | congruence].
  - intros j Hj.
    destruct (decide (0 <= j < size v)) as [Hjr|Hjr];
      [|rewrite !getFlag_outside by (simpl; lia); reflexivity].
    rewrite !getFlag_testbit by (simpl; lia). simpl.
    destruct (decide (block_index w j = block_index w i)) as [Heq|Hneq].
    + rewrite Heq, list_lookup_insert_eq, Hblk by assumption. simpl.
      rewrite written_block_bit by apply bit_offset_range.
      case_decide as Hoff; [|reflexivity].
      exfalso. apply (same_block_offsets j i); auto; lia.
    + rewrite list_lookup_insert_ne by congruence. reflexivity.
  - intros k Hk. simpl. apply list_lookup_insert_ne. congruence.
Qed.

Lemma create_well_formed (n : Z) : 0 <= n -> well_formed w (create w n).
Proof.
  intros Hn. unfold well_formed, create, block_count. simpl.
  rewrite length_replicate.
  pose proof (Z.div_pos (n + w - 1) w ltac:(lia) ltac:(lia)).
  pose proof (Z.div_mod (n + w - 1) w ltac:(lia)).
  pose proof (Z.mod_pos_bound (n + w - 1) w ltac:(lia)).
  lia.
Qed.

Lemma create_all_false (n p : Z) :
  0 <= p < n -> getFlag w (create w n) p = Some false.
Proof.
  intros Hp. pose proof (create_well_formed n ltac:(lia)) as Hwf.
  pose proof (block_index_lt (create w n) p Hwf Hp) as Hlt.
  rewrite getFlag_testbit by assumption. simpl in *.
  rewrite length_replicate in Hlt.
  rewrite lookup_replicate_2 by assumption. simpl.
  rewrite Z.bits_0. reflexivity.
Qed.

(** One iteration: the flag at [idx] is negated, the other flags stay, and
    the invariant is kept. *)
Lemma packed_toggle_flips (n : Z) (st : state) (idx : Z) :
  packed_inv w n st -> 0 <= idx < n ->
  exists st', toggle w st idx = Some st' /\ packed_inv w n st' /\
    forall p, flag w st' p
              = if decide (p = idx) then negb <$> flag w st p else flag w st p.
Proof.
  intros [Hsz Hwf] Hidx. unfold flag.
  assert (Hin : 0 <= idx < size (bool_vec st)) by lia.
  pose proof (block_index_lt _ _ Hwf Hin) as Hlt.
  destruct (lookup_lt_is_Some_2 _ _ Hlt) as [blk Hblk].
  pose proof (getFlag_testbit (bool_vec st) idx Hin) as Hget.
  rewrite Hblk in Hget. simpl in Hget.
  destruct (setFlag_spec (bool_vec st) idx
              (negb (Z.testbit blk (bit_offset w idx))) Hwf Hin)
    as (v' & Hset & Hsz' & Hwf' & Hrd & Hoth & _).
  unfold toggle. rewrite Hget. simpl. rewrite Hset. simpl. rewrite Hrd. simpl.
  eexists. split; [reflexivity|]. split.
  - split; simpl; [lia | assumption].
  - intros p. simpl. case_decide as Hp.
    + subst p. rewrite Hrd, Hget. reflexivity.
    + apply Hoth. assumption.
Qed.
End PackedStoreFacts.

(** ** The two cases side by side *)

Section CaseFacts.
Import Allocator Loop.

(** Case 2 after [k] iterations. *)
Lemma raw_after (h : Heap) (n : Z) (indices : list Z) (k : Z) :
  0 <= n <= SizeT.SIZE_MAX -> avail h n = true ->
  valid_workload n indices -> 0 <= k <= Z.of_nat (length indices) ->
  exists raw_mem0 h' st,
    allocate 1 n h = (Returned raw_mem0, h') /\
    RawStore.access_loop indices k
      {| RawStore.raw_mem := raw_mem0; RawStore.sink := false |} = Some st /\
    RawStore.raw_inv n st /\
    forall p, 0 <= p < n ->
      RawStore.flag st p
      = Some (Nat.odd (occurrences p (take (Z.to_nat k) indices))).
Proof.
  intros Hn Hav Hvalid Hk.
  destruct (allocate_raw_inv h n Hn Hav) as (m & h' & Hal & Hinv & Hfalse).
  destruct (run_list_parity RawStore.toggle RawStore.flag (RawStore.raw_inv n) n
              (raw_toggle_flips n) (take (Z.to_nat k) indices) _ Hinv)
    as (st & Hrun & Hinv' & Hfl).
  { apply Forall_take. exact Hvalid. }
  exists m, h', st. split; [assumption|]. split.
  - unfold RawStore.access_loop. rewrite for_each_run_list by assumption.
    assumption.
  - split; [assumption|]. intros p Hp.
    rewrite Hfl, (Hfalse p Hp). simpl. rewrite xorb_false_r. reflexivity.
Qed.

(** Case 1 after [k] iterations. *)
Lemma packed_after (w n : Z) (indices : list Z) (k : Z) :
  1 <= w -> 0 <= n ->
  valid_workload n indices -> 0 <= k <= Z.of_nat (length indices) ->
  exists st,
    PackedStore.case1 w n k indices = Some st /\
    PackedStore.packed_inv w n st /\
    forall p, 0 <= p < n ->
      PackedStore.flag w st p
      = Some (Nat.odd (occurrences p (take (Z.to_nat k) indices))).
Proof.
  intros Hw Hn Hvalid Hk.
  set (st0 := {| PackedStore.bool_vec := PackedStore.create w n;
                 PackedStore.sink := false |}).
  assert (Hinv : PackedStore.packed_inv w n st0).
  { split; [reflexivity | apply create_well_formed; assumption]. }
  destruct (run_list_parity (PackedStore.toggle w) (PackedStore.flag w)
              (PackedStore.packed_inv w n) n
              (packed_toggle_flips w Hw n) (take (Z.to_nat k) indices) _ Hinv)
    as (st & Hrun & Hinv' & Hfl).
  { apply Forall_take. exact Hvalid. }
  exists st. split.
  - unfold PackedStore.case1, PackedStore.access_loop.
    rewrite for_each_run_list by assumption. assumption.
  - split; [assumption|]. intros p Hp. rewrite Hfl.
    unfold PackedStore.flag at 1. simpl.
    rewrite create_all_false by assumption. simpl.
    rewrite xorb_false_r. reflexivity.
Qed.

(** Both cases run to the end of the workload: each flag ends up true
    exactly when its position occurs an odd number of times. *)
Lemma cases_parity (w : Z) (h : Heap) (n : Z) (indices : list Z) :
  1 <= w -> 0 <= n <= SizeT.SIZE_MAX -> avail h n = true ->
  valid_workload n indices ->
  exists raw packed,
    RawStore.case2 n (Z.of_nat (length indices)) indices h
      = Returned (Some raw) /\
    PackedStore.case1 w n (Z.of_nat (length indices)) indices = Some packed /\
    forall p, 0 <= p < n ->
      RawStore.flag raw p = Some (Nat.odd (occurrences p indices)) /\
      PackedStore.flag w packed p = Some (Nat.odd (occurrences p indices)).
Proof.
  intros Hw Hn Hav Hvalid.
  destruct (raw_after h n indices (Z.of_nat (length indices)) Hn Hav Hvalid
              ltac:(lia)) as (m & h' & raw & Hal & Hloop & _ & Hraw).
  destruct (packed_after w n indices (Z.of_nat (length indices)) Hw
              ltac:(lia) Hvalid ltac:(lia)) as (packed & Hcase & _ & Hpk).
  rewrite Nat2Z.id, firstn_all in Hraw, Hpk.
  exists raw, packed. split.
  - unfold RawStore.case2. rewrite Hal, Hloop. reflexivity.
  - split; [assumption|]. intros p Hp. split; auto.
Qed.

(** Flag by flag agreement is agreement of the logical states. *)
Lemma logical_states_agree (w : Z) (n : nat) raw packed :
  (forall p, 0 <= p < Z.of_nat n ->
     RawStore.flag raw p = PackedStore.flag w packed p) ->
  RawStore.logical_state n raw = PackedStore.logical_state w n packed.
Proof.
  intros Hfl. unfold RawStore.logical_state, PackedStore.logical_state.
  apply map_ext_in. intros p Hp. apply in_seq in Hp. apply Hfl. lia.
Qed.
End CaseFacts.

Section StoreTheorems.
Import Allocator Loop.

(** C4.  With eight flags and the workload [0, 1, 0, 3], both cases run
    to completion from an all-false store and end in the same logical
    state: flags 1 and 3 true, flags 0, 2, 4, 5, 6 and 7 false. *)
Theorem scenario_final_state (w : Z) (h : Heap) :
  1 <= w -> avail h 8 = true ->
  exists raw packed,
    RawStore.case2 8 4 [0; 1; 0; 3] h = Returned (Some raw) /\
    PackedStore.case1 w 8 4 [0; 1; 0; 3] = Some packed /\
    RawStore.logical_state 8 raw
      = Some <$> [false; true; false; true; false; false; false; false] /\
    PackedStore.logical_state w 8 packed
      = Some <$> [false; true; false; true; false; false; false; false] /\
    RawStore.logical_state 8 raw = PackedStore.logical_state w 8 packed.
Proof.
  intros Hw Hav.
  destruct (cases_parity w h 8 [0; 1; 0; 3] Hw) as (raw & packed & H2 & H1 & Hfl).
  - unfold SizeT.SIZE_MAX. lia.
  - assumption.
  - unfold valid_workload. repeat constructor; lia.
  - exists raw, packed. split; [exact H2|]. split; [exact H1|].
    assert (Hraw : RawStore.logical_state 8 raw
              = Some <$> [false; true; false; true; false; false; false; false]).
    { unfold RawStore.logical_state. simpl.
      rewrite !(fun p Hp => proj1 (Hfl p Hp)) by lia. reflexivity. }
    assert (Hpk : PackedStore.logical_state w 8 packed
              = Some <$> [false; true; false; true; false; false; false; false]).
    { unfold PackedStore.logical_state. simpl.
      rewrite !(fun p Hp => proj2 (Hfl p Hp)) by lia. reflexivity. }
    split; [exact Hraw|]. split; [exact Hpk|]. rewrite Hraw, Hpk. reflexivity.
Qed.

Lemma scenario_final_state_witness :
  exists raw packed,
    RawStore.case2 8 4 [0; 1; 0; 3] page_heap = Returned (Some raw) /\
    PackedStore.case1 64 8 4 [0; 1; 0; 3] = Some packed /\
    RawStore.logical_state 8 raw
      = Some <$> [false; true; false; true; false; false; false; false] /\
    PackedStore.logical_state 64 8 packed
      = Some <$> [false; true; false; true; false; false; false; false] /\
    RawStore.logical_state 8 raw = PackedStore.logical_state 64 8 packed.
Proof. apply (scenario_final_state 64 page_heap); [lia | reflexivity]. Defined.

(** C5.  For every block width [w >= 1] and every valid flag index [i]
    of a packed store whose blocks have room for all its flags: a value
    written to flag [i] is the value read back from it, be it true or false;
    every other flag [j <> i] reads as it did before the write; and no block
    other than block [i / w] is changed. *)
Theorem setFlag_getFlag (w : Z) (v : PackedStore.bit_vector) (i : Z) (x : bool) :
  1 <= w -> PackedStore.well_formed w v -> 0 <= i < PackedStore.size v ->
  exists v',
    PackedStore.setFlag w v i x = Some v' /\
    PackedStore.getFlag w v' i = Some x /\
    (forall j, j <> i -> PackedStore.getFlag w v' j = PackedStore.getFlag w v j) /\
    (forall k : nat, k <> Z.to_nat (i / w) ->
       PackedStore.blocks v' !! k = PackedStore.blocks v !! k).
Proof.
  intros Hw Hwf Hi.
  destruct (setFlag_spec w Hw v i x Hwf Hi)
    as (v' & Hset & _ & _ & Hrd & Hoth & Hblk).
  exists v'. auto.
Qed.

Lemma setFlag_getFlag_witness :
  exists v',
    PackedStore.setFlag 8 (PackedStore.create 8 20) 13 true = Some v' /\
    PackedStore.getFlag 8 v' 13 = Some true /\
    (forall j, j <> 13 ->
       PackedStore.getFlag 8 v' j
       = PackedStore.getFlag 8 (PackedStore.create 8 20) j) /\
    (forall k : nat, k <> Z.to_nat (13 / 8) ->
       PackedStore.blocks v' !! k
       = PackedStore.blocks (PackedStore.create 8 20) !! k).
Proof.
  apply (setFlag_getFlag 8 (PackedStore.create 8 20) 13 true).
  - lia.
  - unfold PackedStore.well_formed. simpl. lia.
  - simpl. lia.
Defined.

(** C9.  For every workload whose entries lie in [[0, ITEM_COUNT)], the
    byte loop and the packed loop both run to completion and end in the
    same logical state, in which flag [p] is true exactly when [p] occurs an
    odd number of times in the workload. *)
Theorem loops_agree_parity (w : Z) (h : Heap) (indices : list Z) :
  1 <= w -> avail h ITEM_COUNT = true ->
  valid_workload ITEM_COUNT indices ->
  exists raw packed,
    RawStore.case2 ITEM_COUNT (Z.of_nat (length indices)) indices h
      = Returned (Some raw) /\
    PackedStore.case1 w ITEM_COUNT (Z.of_nat (length indices)) indices
      = Some packed /\
    RawStore.logical_state (Z.to_nat ITEM_COUNT) raw
      = PackedStore.logical_state w (Z.to_nat ITEM_COUNT) packed /\
    forall p, 0 <= p < ITEM_COUNT ->
      RawStore.flag raw p = PackedStore.flag w packed p /\
      (RawStore.flag raw p = Some true <-> Nat.Odd (occurrences p indices)).
Proof.
  intros Hw Hav Hvalid.
  destruct (cases_parity w h ITEM_COUNT indices Hw) as (raw & packed & H2 & H1 & Hfl).
  - unfold ITEM_COUNT, SizeT.SIZE_MAX. lia.
  - assumption.
  - assumption.
  - exists raw, packed. split; [exact H2|]. split; [exact H1|]. split.
    + apply logical_states_agree. intros p Hp.
      destruct (Hfl p ltac:(unfold ITEM_COUNT in *; lia)) as [-> ->].
      reflexivity.
    + intros p Hp. destruct (Hfl p Hp) as [Hr Hk]. rewrite Hr, Hk.
      split; [reflexivity|]. rewrite <- Nat.odd_spec.
      split; [intros [= ->]; reflexivity | intros ->; reflexivity].
Qed.

Lemma loops_agree_parity_witness :
  exists raw packed,
    RawStore.case2 ITEM_COUNT (Z.of_nat (length [5; 8095; 5; 5])) [5; 8095; 5; 5]
      page_heap = Returned (Some raw) /\
    PackedStore.case1 64 ITEM_COUNT (Z.of_nat (length [5; 8095; 5; 5]))
      [5; 8095; 5; 5] = Some packed /\
    RawStore.logical_state (Z.to_nat ITEM_COUNT) raw
      = PackedStore.logical_state 64 (Z.to_nat ITEM_COUNT) packed /\
    forall p, 0 <= p < ITEM_COUNT ->
      RawStore.flag raw p = PackedStore.flag 64 packed p /\
      (RawStore.flag raw p = Some true
       <-> Nat.Odd (occurrences p [5; 8095; 5; 5])).
Proof.
  apply (loops_agree_parity 64 page_heap [5; 8095; 5; 5]).
  - lia.
  - reflexivity.
  - unfold valid_workload, ITEM_COUNT. repeat constructor; lia.
Defined.

(** C10.  In the byte case the buffer starts as [ITEM_COUNT] zero bytes
    and, after any number [k] of iterations of the access loop, still has
    its size and holds nothing but bytes 0 and 1. *)
Theorem raw_bytes_are_bits (h : Heap) (itemCount : Z) (indices : list Z) (k : Z) :
  0 <= itemCount <= SizeT.SIZE_MAX -> avail h itemCount = true ->
  valid_workload itemCount indices ->
  0 <= k <= Z.of_nat (length indices) ->
  exists raw_mem0 h' st,
    allocate 1 itemCount h = (Returned raw_mem0, h') /\
    Forall (fun b => b = 0) raw_mem0 /\
    RawStore.access_loop indices k
      {| RawStore.raw_mem := raw_mem0; RawStore.sink := false |} = Some st /\
    Z.of_nat (length (RawStore.raw_mem st)) = itemCount /\
    Forall (fun b => b = 0 \/ b = 1) (RawStore.raw_mem st).
Proof.
  intros Hn Hav Hvalid Hk.
  destruct (raw_after h itemCount indices k Hn Hav Hvalid Hk)
    as (m & h' & st & Hal & Hloop & [Hlen Hbits] & _).
  pose proof (allocate_success h 1 itemCount ltac:(lia)) as Hal'.
  rewrite Z.div_1_r, Z.mul_1_r in Hal'. specialize (Hal' Hn Hav).
  rewrite Hal in Hal'. injection Hal' as -> ->.
  eexists _, _, st. split; [exact Hal|]. split.
  - apply Forall_replicate. reflexivity.
  - split; [assumption|]. split; assumption.
Qed.

Lemma raw_bytes_are_bits_witness :
  exists raw_mem0 h' st,
    allocate 1 8 page_heap = (Returned raw_mem0, h') /\
    Forall (fun b => b = 0) raw_mem0 /\
    RawStore.access_loop [0; 1; 0; 3] 3
      {| RawStore.raw_mem := raw_mem0; RawStore.sink := false |} = Some st /\
    Z.of_nat (length (RawStore.raw_mem st)) = 8 /\
    Forall (fun b => b = 0 \/ b = 1) (RawStore.raw_mem st).
Proof.
  apply (raw_bytes_are_bits page_heap 8 [0; 1; 0; 3] 3).
  - unfold SizeT.SIZE_MAX. lia.
  - reflexivity.
  - unfold valid_workload. repeat constructor; lia.
  - simpl. lia.
Defined.
End StoreTheorems.

(** ** The timer *)

Section TimerFacts.
Import Allocator Timer.

Lemma run_bind {A B : Type} (m : prog A) (f : A -> prog B) (w : World) :
  run (bind m f) w
  = match run m w with
    | (Returned a, w') => run (f a) w'
    | (Thrown e, w') => (Thrown e, w')
    end.
Proof.
  revert w. induction m as [a|e|k IH|line k IH]; intros w; simpl; auto.
Qed.

(** The destructor runs after the body on both ways out; unless it throws
    itself, the outcome of the scope is the outcome of the body. *)
Lemma run_at_scope_exit {A : Type} (body : prog A) (dtor : prog unit) (w : World) :
  run (at_scope_exit body dtor) w
  = match run dtor (run body w).2 with
    | (Returned _, w') => ((run body w).1, w')
    | (Thrown e, w') => (Thrown e, w')
    end.
Proof.
  revert w. induction body as [a|e|k IH|line k IH]; intros w; simpl; auto;
    rewrite run_bind; destruct (run dtor w) as [[[]|e'] w']; reflexivity.
Qed.

(** Code can only read the clock forward and append to the output. *)
Lemma run_frame {A : Type} (m : prog A) (w : World) :
  clock (run m w).2 = clock w /\
  (reads w <= reads (run m w).2)%nat /\
  exists lines, out (run m w).2 = out w ++ lines.
Proof.
  revert w. induction m as [a|e|k IH|line k IH]; intros w; simpl.
  - split; [reflexivity|]. split; [lia|]. exists []. rewrite app_nil_r. reflexivity.
  - split; [reflexivity|]. split; [lia|]. exists []. rewrite app_nil_r. reflexivity.
  - destruct (IH (clock w (reads w))
                {| clock := clock w; reads := S (reads w); out := out w |})
      as (Hc & Hr & lines & Ho). simpl in *.
    split; [assumption|]. split; [lia|]. exists lines. assumption.
  - destruct (IH {| clock := clock w; reads := reads w; out := out w ++ [line] |})
      as (Hc & Hr & lines & Ho). simpl in *.
    split; [assumption|]. split; [assumption|]. exists (line :: lines).
    rewrite Ho, <- app_assoc. reflexivity.
Qed.

Lemma to_ms_nonneg (duration : Z) : 0 <= duration -> (0 <= to_ms duration)%Q.
Proof.
  intros Hd. unfold to_ms, Qle, Qdiv, Qmult, Qinv, inject_Z. simpl. lia.
Qed.

Lemma to_ms_nonneg_iff (duration : Z) : (0 <= to_ms duration)%Q <-> 0 <= duration.
Proof.
  unfold to_ms, Qle, Qdiv, Qmult, Qinv, inject_Z. simpl. lia.
Qed.
End TimerFacts.

Section TimerTheorems.
Import Allocator Timer.

(** C6, as the code has it.  A timer scope around any body, whether the
    body returns or an exception leaves it, ends with the outcome of the body
    and adds to what the body printed exactly one line,
    ["[<label>] took <ms> ms."], written at scope exit.  The number reported
    is the difference between the clock reading taken at scope exit and the
    one taken at construction; it is not negative exactly when the later
    reading is not the smaller one, hence whenever the clock does not run
    backwards, a body that does nothing included. *)
Theorem timed_scope_reports_once {A : Type} (show_double : Q -> string)
    (name : string) (body : prog A) (w : World) :
  exists (r : outcome A) (body_lines : list string) (reads' : nat) (duration : Z),
    run body {| clock := clock w; reads := S (reads w); out := out w |}
      = (r, {| clock := clock w; reads := reads'; out := out w ++ body_lines |}) /\
    run (timed_scope show_double name body) w
      = (r, {| clock := clock w; reads := S reads';
               out := out w ++ body_lines ++
                 [("[" ++ name ++ "] took " ++ show_double (to_ms duration)
                     ++ " ms.")%string] |}) /\
    duration = clock w reads' - clock w (reads w) /\
    ((0 <= to_ms duration)%Q <-> clock w (reads w) <= clock w reads') /\
    (monotonic (clock w) -> (0 <= to_ms duration)%Q).
Proof.
  set (w1 := {| clock := clock w; reads := S (reads w); out := out w |}).
  destruct (run_frame body w1) as (Hc & Hr & lines & Ho).
  destruct (run body w1) as [r [clk2 reads2 out2]] eqn:Hbody.
  simpl in Hc, Hr, Ho. subst clk2 out2.
  exists r, lines, reads2, (clock w reads2 - clock w (reads w)).
  split; [reflexivity|]. split; [|split; [reflexivity|split]].
  - unfold timed_scope, Timer_ctor. simpl. fold w1.
    rewrite run_at_scope_exit, Hbody. simpl.
    unfold report_line. rewrite <- app_assoc. reflexivity.
  - rewrite to_ms_nonneg_iff. lia.
  - intros Hmono. apply to_ms_nonneg.
    specialize (Hmono (reads w) reads2 ltac:(lia)). lia.
Qed.

(** C6, as the specification has it, fails: when the clock is set back
    between the two readings, an empty timed region reports a negative number
    of milliseconds. *)
Lemma timer_negative_report :
  out (run (timed_scope show_fraction "Case 2: Raw Memory (uint8_t*)" (Ret tt))
         backward_world).2
  = ["[Case 2: Raw Memory (uint8_t*)] took -250/1000000 ms."%string] /\
  ~ (0 <= to_ms (clock backward_world 1 - clock backward_world 0))%Q.
Proof.
  split; [reflexivity|]. rewrite to_ms_nonneg_iff. simpl. lia.
Qed.
End TimerTheorems.

(** ** Sample runs *)

Section SampleRuns.
Import Allocator Timer.

(** A request the system allocator refuses ends in the same exception as
    an overflowing one, after [malloc] has been asked. *)
Example allocate_out_of_memory :
  allocate 1 70000 page_heap = (Thrown bad_alloc, log_request 70000 page_heap).
Proof. reflexivity. Qed.

Example allocate_overflow :
  allocate 8 (2 ^ 61) page_heap = (Thrown bad_alloc, page_heap).
Proof. reflexivity. Qed.

Example allocate_six_bytes :
  (malloc 6 page_heap).1 = Some [170; 171; 172; 173; 174; 175] /\
  (allocate 2 3 page_heap).1 = Returned [0; 0; 0; 0; 0; 0].
Proof. split; reflexivity. Qed.

Example case2_scenario :
  RawStore.case2 8 4 [0; 1; 0; 3] page_heap
  = Returned (Some {| RawStore.raw_mem := [0; 1; 0; 1; 0; 0; 0; 0];
                      RawStore.sink := true |}).
Proof. reflexivity. Qed.

Example case1_scenario_width_3 :
  PackedStore.case1 3 8 4 [0; 1; 0; 3]
  = Some {| PackedStore.bool_vec :=
              {| PackedStore.size := 8; PackedStore.blocks := [2; 1; 0] |};
            PackedStore.sink := true |}.
Proof. reflexivity. Qed.

(** An index outside the buffer leaves defined behaviour. *)
Example case2_out_of_range :
  RawStore.case2 8 4 [0; 1; 0; 8] page_heap = Returned None.
Proof. reflexivity. Qed.

(** An empty timed region, and one that an exception leaves. *)
Example empty_scope_output :
  out (run (timed_scope show_fraction "Case 2" (Ret tt)) steady_world).2
  = ["[Case 2] took 250/1000000 ms."%string].
Proof. reflexivity. Qed.

Example throwing_scope_output :
  let r := run (timed_scope (A := unit) show_fraction "Case 2"
                  (Emit "x" (Now (fun _ => Throw bad_alloc)))) steady_world in
  r.1 = Thrown bad_alloc /\
  out r.2 = ["x"%string; "[Case 2] took 500/1000000 ms."%string].
Proof. split; reflexivity. Qed.
End SampleRuns.

(** * Further properties *)

(** ** The allocator when memory runs out *)

Section AllocatorFailure.
Import SizeT Allocator.

(** A request that passes the guard and that [malloc] refuses. *)
Lemma allocate_refused (h : Heap) (sizeof_T n : Z) :
  1 <= sizeof_T ->
  0 <= n <= SIZE_MAX / sizeof_T ->
  avail h (n * sizeof_T) = false ->
  allocate sizeof_T n h = (Thrown bad_alloc, log_request (n * sizeof_T) h).
Proof.
  intros Hs [Hn0 Hn] Hav.
  assert (Hprod : 0 <= n * sizeof_T <= SIZE_MAX).
  { pose proof (guard_iff_product sizeof_T n Hs). nia. }
  unfold allocate.
  destruct (Z.gtb_spec n (SIZE_MAX / sizeof_T)) as [Hgt|_]; [lia|].
  rewrite (wrap_small _ Hprod). unfold malloc. rewrite Hav. reflexivity.
Qed.

(** X1.  When [n] passes the overflow guard and [malloc] returns a null
    pointer, [allocate] throws [std::bad_alloc] after exactly one request to
    [malloc], for [n * sizeof(T)] bytes, and returns no block. *)
Theorem allocate_out_of_memory_throws (h : Heap) (sizeof_T n : Z) :
  1 <= sizeof_T ->
  0 <= n <= SIZE_MAX / sizeof_T ->
  avail h (n * sizeof_T) = false ->
  (allocate sizeof_T n h).1 = Thrown bad_alloc /\
  requested (allocate sizeof_T n h).2 = requested h ++ [n * sizeof_T].
Proof.
  intros Hs Hn Hav. rewrite (allocate_refused h sizeof_T n Hs Hn Hav).
  split; reflexivity.
Qed.

Lemma allocate_out_of_memory_throws_witness :
  (allocate 4 20000 page_heap).1 = Thrown bad_alloc /\
  requested (allocate 4 20000 page_heap).2
  = requested page_heap ++ [20000 * 4].
Proof.
  apply (allocate_out_of_memory_throws page_heap 4 20000).
  - lia.
  - split; [lia | apply Z.leb_le; reflexivity].
  - reflexivity.
Defined.
End AllocatorFailure.

(** ** More on the byte store *)

Section RawStoreMore.
Import Allocator Loop RawStore.

(** The loop body spelled out for an index inside the buffer. *)
Lemma raw_toggle_inside (st : state) (idx b : Z) :
  0 <= idx -> raw_mem st !! Z.to_nat idx = Some b ->
  toggle st idx
  = Some {| raw_mem := <[Z.to_nat idx := to_uint8 (1 - b)]> (raw_mem st);
            sink := negb (to_uint8 (1 - b) =? 0) |}.
Proof.
  intros Hidx Hb. apply lookup_lt_Some in Hb as Hlt.
  unfold toggle, read. destruct (Z.leb_spec 0 idx); [|lia].
  rewrite Hb. simpl. rewrite list_lookup_insert_eq by assumption. reflexivity.
Qed.

Lemma raw_toggle_outside (st : state) (idx : Z) :
  ~ (0 <= idx < Z.of_nat (length (raw_mem st))) -> toggle st idx = None.
Proof.
  intros Hout. unfold toggle, read.
  destruct (Z.leb_spec 0 idx); [|reflexivity].
  rewrite lookup_ge_None_2 by lia. reflexivity.
Qed.

Lemma raw_toggle_length (st st' : state) (idx : Z) :
  toggle st idx = Some st' -> length (raw_mem st') = length (raw_mem st).
Proof.
  intros Ht.
  destruct (decide (0 <= idx < Z.of_nat (length (raw_mem st)))) as [Hin|Hout];
    [|rewrite raw_toggle_outside in Ht by assumption; discriminate].
  destruct (lookup_lt_is_Some_2 (raw_mem st) (Z.to_nat idx) ltac:(lia)) as [b Hb].
  rewrite (raw_toggle_inside st idx b) in Ht by (lia || assumption).
  injection Ht as <-. simpl. apply length_insert.
Qed.

(** X2.  Toggling the same index twice restores the buffer byte for byte,
    whatever value (0 to 255) the byte held. *)
Theorem raw_toggle_twice (st : state) (idx b : Z) :
  0 <= idx -> raw_mem st !! Z.to_nat idx = Some b -> 0 <= b < 256 ->
  exists st1 st2,
    toggle st idx = Some st1 /\ toggle st1 idx = Some st2 /\
    raw_mem st2 = raw_mem st.
Proof.
  intros Hidx Hb Hbyte. apply lookup_lt_Some in Hb as Hlt.
  eexists _, _. split; [apply raw_toggle_inside; eassumption|]. split.
  - apply raw_toggle_inside; [assumption|]. simpl.
    apply list_lookup_insert_eq. assumption.
  - simpl. rewrite list_insert_insert_eq.
    apply list_insert_id. rewrite Hb. f_equal. unfold to_uint8.
    destruct (decide (b <= 1)) as [Hsmall|Hbig].
    + rewrite (Z.mod_small (1 - b)) by lia. rewrite Z.mod_small; lia.
    + replace ((1 - b) mod 256) with (257 - b)
        by (apply (Z.mod_unique (1 - b) 256 (-1)); lia).
      apply (Z.mod_unique _ 256 (-1)); lia.
Qed.

Lemma raw_toggle_twice_witness :
  exists st1 st2,
    toggle {| raw_mem := [7; 200; 0]; sink := false |} 1 = Some st1 /\
    toggle st1 1 = Some st2 /\
    raw_mem st2 = raw_mem {| raw_mem := [7; 200; 0]; sink := false |}.
Proof.
  apply (raw_toggle_twice {| raw_mem := [7; 200; 0]; sink := false |} 1 200).
  - lia.
  - reflexivity.
  - lia.
Defined.

(** X3.  A byte that is neither 0 nor 1 is not turned into a flag by the
    loop body: [b] becomes [257 - b], again neither 0 nor 1, and the boolean
    it stands for is true before and after. *)
Theorem raw_toggle_non_bit (st : state) (idx b : Z) :
  0 <= idx -> raw_mem st !! Z.to_nat idx = Some b -> 2 <= b <= 255 ->
  exists st',
    toggle st idx = Some st' /\
    raw_mem st' !! Z.to_nat idx = Some (257 - b) /\
    2 <= 257 - b <= 255 /\
    flag st idx = Some true /\ flag st' idx = Some true /\ sink st' = true.
Proof.
  intros Hidx Hb Hbyte. apply lookup_lt_Some in Hb as Hlt.
  assert (Hflip : to_uint8 (1 - b) = 257 - b).
  { unfold to_uint8. symmetry. apply (Z.mod_unique (1 - b) 256 (-1)); lia. }
  eexists. split; [apply raw_toggle_inside; eassumption|]. simpl.
  rewrite Hflip. split; [apply list_lookup_insert_eq; assumption|].
  split; [lia|]. unfold flag, read. simpl.
  destruct (Z.leb_spec 0 idx); [|lia].
  rewrite Hb, list_lookup_insert_eq by assumption. simpl.
  destruct (Z.eqb_spec b 0); [lia|].
  destruct (Z.eqb_spec (257 - b) 0); [lia|]. auto.
Qed.

Lemma raw_toggle_non_bit_witness :
  exists st',
    toggle {| raw_mem := [7; 200; 0]; sink := false |} 1 = Some st' /\
    raw_mem st' !! Z.to_nat 1 = Some (257 - 200) /\
    2 <= 257 - 200 <= 255 /\
    flag {| raw_mem := [7; 200; 0]; sink := false |} 1 = Some true /\
    flag st' 1 = Some true /\ sink st' = true.
Proof.
  apply (raw_toggle_non_bit {| raw_mem := [7; 200; 0]; sink := false |} 1 200).
  - lia.
  - reflexivity.
  - lia.
Defined.
End RawStoreMore.

Section RawLoopMore.
Import Allocator Loop RawStore.

Lemma run_list_app {S : Type} (body : S -> Z -> option S)
    (l1 l2 : list Z) (st : S) :
  run_list body (l1 ++ l2) st = run_list body l1 st ≫= run_list body l2.
Proof.
  revert st. induction l1 as [|idx l1 IH]; intros st; simpl; [reflexivity|].
  destruct (body st idx) as [st'|]; simpl; [apply IH | reflexivity].
Qed.

(** The traversal stays within defined behaviour exactly when every index
    lies inside the buffer. *)
Lemma raw_run_list_defined (indices : list Z) (st : state) :
  is_Some (run_list toggle indices st)
  <-> valid_workload (Z.of_nat (length (raw_mem st))) indices.
Proof.
  unfold valid_workload. revert st.
  induction indices as [|idx rest IH]; intros st; simpl.
  - split; [intros _; constructor | intros _; eexists; reflexivity].
  - rewrite Forall_cons.
    destruct (decide (0 <= idx < Z.of_nat (length (raw_mem st)))) as [Hin|Hout].
    + destruct (toggle st idx) as [st1|] eqn:Ht.
      * simpl. rewrite IH, (raw_toggle_length _ _ _ Ht). tauto.
      * destruct (lookup_lt_is_Some_2 (raw_mem st) (Z.to_nat idx) ltac:(lia))
          as [b Hb].
        rewrite (raw_toggle_inside st idx b) in Ht by (lia || assumption).
        discriminate.
    + rewrite raw_toggle_outside by assumption. simpl.
      split; [intros [? [=]] | tauto].
Qed.

(** X4.  The byte loop, run over a whole workload, stays within defined
    behaviour if and only if every index of the workload is smaller than the
    size of the buffer. *)
Theorem raw_loop_defined_iff (indices : list Z) (st : state) :
  is_Some (access_loop indices (Z.of_nat (length indices)) st)
  <-> valid_workload (Z.of_nat (length (raw_mem st))) indices.
Proof.
  unfold access_loop. rewrite for_each_run_list by lia.
  rewrite Nat2Z.id, firstn_all. apply raw_run_list_defined.
Qed.

(** X5.  After the byte loop has run over a workload that is not empty,
    [sink] holds the value of the flag that was accessed last, as the buffer
    now has it. *)
Theorem raw_sink_is_last_flag (indices : list Z) (idx : Z) (st : state) :
  valid_workload (Z.of_nat (length (raw_mem st))) (indices ++ [idx]) ->
  exists st',
    access_loop (indices ++ [idx]) (Z.of_nat (length (indices ++ [idx]))) st
      = Some st' /\
    flag st' idx = Some (sink st').
Proof.
  intros Hvalid. apply raw_run_list_defined in Hvalid as [st' Hrun].
  exists st'. split.
  - unfold access_loop. rewrite for_each_run_list by lia.
    rewrite Nat2Z.id, firstn_all. assumption.
  - rewrite run_list_app in Hrun.
    destruct (run_list toggle indices st) as [st1|]; [|discriminate].
    simpl in Hrun.
    destruct (decide (0 <= idx < Z.of_nat (length (raw_mem st1)))) as [Hin|Hout];
      [|rewrite raw_toggle_outside in Hrun by assumption; discriminate].
    destruct (lookup_lt_is_Some_2 (raw_mem st1) (Z.to_nat idx) ltac:(lia))
      as [b Hb].
    rewrite (raw_toggle_inside st1 idx b) in Hrun by (lia || assumption).
    injection Hrun as <-. unfold flag, read. simpl.
    destruct (Z.leb_spec 0 idx); [|lia].
    rewrite list_lookup_insert_eq by (apply lookup_lt_Some in Hb; assumption).
    reflexivity.
Qed.

Lemma raw_sink_is_last_flag_witness :
  exists st',
    access_loop ([2; 0] ++ [2]) (Z.of_nat (length ([2; 0] ++ [2])))
      {| raw_mem := [0; 0; 0]; sink := false |} = Some st' /\
    flag st' 2 = Some (sink st').
Proof.
  apply (raw_sink_is_last_flag [2; 0] 2 {| raw_mem := [0; 0; 0]; sink := false |}).
  unfold valid_workload. simpl. repeat constructor; lia.
Defined.

(** Under the invariant the flags determine the buffer. *)
Lemma raw_mem_of_flags (n : Z) (st1 st2 : state) :
  raw_inv n st1 -> raw_inv n st2 ->
  (forall p, flag st1 p = flag st2 p) -> raw_mem st1 = raw_mem st2.
Proof.
  intros [Hlen1 Hbits1] [Hlen2 Hbits2] Hfl. apply list_eq. intros i.
  destruct (decide (i < length (raw_mem st1))%nat) as [Hlt|Hge].
  - destruct (lookup_lt_is_Some_2 (raw_mem st1) i Hlt) as [b1 Hb1].
    destruct (lookup_lt_is_Some_2 (raw_mem st2) i ltac:(lia)) as [b2 Hb2].
    specialize (Hfl (Z.of_nat i)). unfold flag, read in Hfl.
    destruct (Z.leb_spec 0 (Z.of_nat i)); [|lia].
    rewrite Nat2Z.id, Hb1, Hb2 in Hfl. simpl in Hfl. rewrite Hb1, Hb2.
    pose proof (proj1 (Forall_lookup _ _) Hbits1 _ _ Hb1) as [-> | ->];
      pose proof (proj1 (Forall_lookup _ _) Hbits2 _ _ Hb2) as [-> | ->];
      simpl in Hfl; congruence.
  - rewrite !lookup_ge_None_2 by lia. reflexivity.
Qed.

Lemma occurrences_Permutation (p : Z) (l1 l2 : list Z) :
  l1 ≡ₚ l2 -> occurrences p l1 = occurrences p l2.
Proof.
  intros Hperm. unfold occurrences. apply Permutation_length.
  apply filter_Permutation. assumption.
Qed.

(** X6.  The final content of the byte buffer does not depend on the order
    of the accesses: from a buffer of bytes 0 and 1, two workloads that are
    rearrangements of one another leave the same buffer behind. *)
Theorem raw_loop_order_irrelevant (n : Z) (st : state) (l1 l2 : list Z) :
  raw_inv n st -> valid_workload n l1 -> l1 ≡ₚ l2 ->
  exists st1 st2,
    access_loop l1 (Z.of_nat (length l1)) st = Some st1 /\
    access_loop l2 (Z.of_nat (length l2)) st = Some st2 /\
    raw_mem st1 = raw_mem st2.
Proof.
  intros Hinv Hv1 Hperm.
  assert (Hv2 : valid_workload n l2).
  { unfold valid_workload in *. rewrite <- Hperm. assumption. }
  destruct (run_list_parity toggle flag (raw_inv n) n (raw_toggle_flips n)
              l1 st Hinv Hv1) as (st1 & Hrun1 & Hinv1 & Hfl1).
  destruct (run_list_parity toggle flag (raw_inv n) n (raw_toggle_flips n)
              l2 st Hinv Hv2) as (st2 & Hrun2 & Hinv2 & Hfl2).
  exists st1, st2. unfold access_loop.
  rewrite !for_each_run_list, !Nat2Z.id, !firstn_all by lia.
  split; [assumption|]. split; [assumption|].
  apply (raw_mem_of_flags n); try assumption.
  intros p. rewrite Hfl1, Hfl2, (occurrences_Permutation p l1 l2 Hperm).
  reflexivity.
Qed.

Lemma raw_loop_order_irrelevant_witness :
  exists st1 st2,
    access_loop [0; 1; 0; 3] (Z.of_nat (length [0; 1; 0; 3]))
      {| raw_mem := [0; 1; 0; 0]; sink := false |} = Some st1 /\
    access_loop [3; 0; 0; 1] (Z.of_nat (length [3; 0; 0; 1]))
      {| raw_mem := [0; 1; 0; 0]; sink := false |} = Some st2 /\
    raw_mem st1 = raw_mem st2.
Proof.
  apply (raw_loop_order_irrelevant 4 {| raw_mem := [0; 1; 0; 0]; sink := false |}
           [0; 1; 0; 3] [3; 0; 0; 1]).
  - split; [reflexivity|]. simpl. unfold is_bit. repeat constructor; lia.
  - unfold valid_workload. repeat constructor; lia.
  - apply (Permutation_cons_app [3] [0; 1] 0). simpl.
    apply (Permutation_cons_app [3; 0] [] 1). simpl.
    apply (Permutation_cons_app [3] [] 0). reflexivity.
Defined.
End RawLoopMore.

(** ** More on the packed store *)

Section PackedStoreMore.
Import PackedStore.

(** X7.  In the packed loop, toggling the same index twice brings every
    flag of the vector back to the value it had. *)
Theorem packed_toggle_twice (w n : Z) (st : state) (idx : Z) :
  1 <= w -> packed_inv w n st -> 0 <= idx < n ->
  exists st1 st2,
    toggle w st idx = Some st1 /\ toggle w st1 idx = Some st2 /\
    forall p, flag w st2 p = flag w st p.
Proof.
  intros Hw Hinv Hidx.
  destruct (packed_toggle_flips w Hw n st idx Hinv Hidx)
    as (st1 & Ht1 & Hinv1 & Hfl1).
  destruct (packed_toggle_flips w Hw n st1 idx Hinv1 Hidx)
    as (st2 & Ht2 & _ & Hfl2).
  exists st1, st2. split; [assumption|]. split; [assumption|].
  intros p. rewrite Hfl2, Hfl1. case_decide; [|reflexivity].
  destruct (flag w st p) as [[]|]; reflexivity.
Qed.

Lemma packed_toggle_twice_witness :
  exists st1 st2,
    toggle 8 {| bool_vec := create 8 20; sink := false |} 13 = Some st1 /\
    toggle 8 st1 13 = Some st2 /\
    forall p, flag 8 st2 p = flag 8 {| bool_vec := create 8 20; sink := false |} p.
Proof.
  apply (packed_toggle_twice 8 20 {| bool_vec := create 8 20; sink := false |} 13).
  - lia.
  - split; [reflexivity|]. unfold well_formed. simpl. lia.
  - lia.
Defined.
End PackedStoreMore.

(** ** The workload as a sequence of draws *)

Section WorkloadDraws.
Import SizeT Workload Main.
Context {G : Type} `{UniformSource G}.

(** The fill loop over [first .. first + count - 1] writes the successive
    draws into those slots, in order. *)
Lemma fill_from_draws (a b : Z) (count first : nat) (l : list Z) (g : G) :
  (first + count <= length l)%nat ->
  (fold_left (fill_step a b) (seq first count) (l, g)).1
  = take first l ++ draws a b count g ++ drop (first + count) l.
Proof.
  revert first l g. induction count as [|count IH]; intros first l g Hlen; simpl.
  - rewrite Nat.add_0_r, take_drop. reflexivity.
  - destruct (uniform_int a b g) as [v0 g'] eqn:Hu.
    assert (fill_step a b (l, g) first = (<[first:=v0]> l, g')) as ->
      by (unfold fill_step; simpl; rewrite Hu; reflexivity).
    rewrite IH by (rewrite length_insert; lia).
    rewrite (take_S_r _ _ v0) by (apply list_lookup_insert_eq; lia).
    rewrite take_insert_ge by lia. rewrite drop_insert_lt by lia.
    rewrite <- app_assoc. simpl.
    replace (S (first + count)) with (first + S count)%nat by lia.
    reflexivity.
Qed.

Lemma draws_take (a b : Z) (k m : nat) (g : G) :
  take k (draws a b (k + m) g) = draws a b k g.
Proof.
  revert g. induction k as [|k IH]; intros g; simpl; [reflexivity|].
  destruct (uniform_int a b g) as [v g']. simpl. rewrite IH. reflexivity.
Qed.

Lemma fill_all_draws (a b : Z) (n : nat) (g : G) :
  (fill a b n (replicate n 0, g)).1 = draws a b n g.
Proof.
  unfold fill. rewrite fill_from_draws by (rewrite length_replicate; lia).
  simpl. rewrite drop_ge by (rewrite length_replicate; lia).
  apply app_nil_r.
Qed.
End WorkloadDraws.

Section WorkloadDrawsTheorems.
Import SizeT Workload Main.

(** X8.  The fill loop leaves in [indices[i]] the value of the call number
    [i] of [distrib(gen)], counted from zero: the workload is the sequence of
    the first [ACCESS_COUNT] draws from the seeded engine over
    [[0, ITEM_COUNT - 1]], in order. *)
Theorem generate_is_draws {G : Type} `{UniformSource G}
    (itemCount accessCount seed : Z) :
  generate itemCount accessCount seed
  = Some (draws 0 (wrap (itemCount - 1)) (Z.to_nat accessCount)
            (seed_engine seed)).
Proof.
  unfold generate. pose proof (wrap_range (itemCount - 1)) as Hb.
  destruct (Z.leb_spec 0 (wrap (itemCount - 1))); [|lia].
  rewrite fill_all_draws. reflexivity.
Qed.

(** X9.  With the same seed and item count, a shorter workload is the
    beginning of a longer one. *)
Theorem generate_prefix {G : Type} `{UniformSource G}
    (itemCount accessCount k seed : Z) :
  0 <= k <= accessCount ->
  generate itemCount k seed
  = take (Z.to_nat k) <$> generate itemCount accessCount seed.
Proof.
  intros Hk. unfold generate. pose proof (wrap_range (itemCount - 1)) as Hb.
  destruct (Z.leb_spec 0 (wrap (itemCount - 1))); [|lia].
  simpl. rewrite !fill_all_draws.
  replace (Z.to_nat accessCount)
    with (Z.to_nat k + (Z.to_nat accessCount - Z.to_nat k))%nat by lia.
  rewrite draws_take. reflexivity.
Qed.

Lemma generate_prefix_witness :
  generate (G := Z) 8 2 1 = take (Z.to_nat 2) <$> generate (G := Z) 8 4 1.
Proof. apply (generate_prefix (G := Z) 8 4 2 1). lia. Defined.
End WorkloadDrawsTheorems.

(** ** More on the timer *)

Section TimerMore.
Import Allocator Timer.

(** What a timer scope does in any world. *)
Lemma timed_scope_run {A : Type} (show_double : Q -> string) (name : string)
    (body : prog A) (w : World) :
  let body_run :=
    run body {| clock := clock w; reads := S (reads w); out := out w |} in
  run (timed_scope show_double name body) w
  = (body_run.1,
     {| clock := clock body_run.2; reads := S (reads body_run.2);
        out := out body_run.2 ++
          [report_line show_double name
             (to_ms (clock body_run.2 (reads body_run.2) - clock w (reads w)))] |}).
Proof.
  simpl. unfold timed_scope, Timer_ctor. simpl.
  rewrite run_at_scope_exit. reflexivity.
Qed.

Lemma to_ms_negative (duration : Z) : (to_ms duration < 0)%Q <-> duration < 0.
Proof.
  unfold to_ms, Qlt, Qdiv, Qmult, Qinv, inject_Z. simpl. lia.
Qed.

(** X10.  The destructor reports the difference of the two clock readings
    as it is: the reported number of milliseconds is negative exactly when
    the reading taken at scope exit is earlier than the one taken at scope
    entry. *)
Theorem timer_reports_raw_difference {A : Type} (show_double : Q -> string)
    (name : string) (body : prog A) (w : World) :
  exists (r : outcome A) (body_lines : list string) (reads' : nat) (duration : Z),
    run (timed_scope show_double name body) w
      = (r, {| clock := clock w; reads := S reads';
               out := out w ++ body_lines ++
                 [("[" ++ name ++ "] took " ++ show_double (to_ms duration)
                     ++ " ms.")%string] |}) /\
    duration = clock w reads' - clock w (reads w) /\
    ((to_ms duration < 0)%Q <-> clock w reads' < clock w (reads w)).
Proof.
  set (w1 := {| clock := clock w; reads := S (reads w); out := out w |}).
  destruct (run_frame body w1) as (Hc & _ & lines & Ho).
  exists (run body w1).1, lines, (reads (run body w1).2),
    (clock w (reads (run body w1).2) - clock w (reads w)).
  split; [|split; [reflexivity | rewrite to_ms_negative; lia]].
  rewrite timed_scope_run. fold w1. simpl in Hc, Ho. rewrite Hc, Ho.
  unfold report_line. rewrite <- app_assoc. reflexivity.
Qed.
End TimerMore.

(** ** The whole program *)

Section MainFacts.
Import SizeT Allocator Loop Workload Timer Main.
Context {G : Type} `{UniformSource G}.
Variable show_double : Q -> string.
Variable block_bytes : Z.
Hypothesis block_bytes_pos : 1 <= block_bytes.

(** The workload [main] generates addresses existing flags only. *)
Lemma generate_from_valid (rd : random_device) (itemCount accessCount : Z) :
  1 <= itemCount -> 0 <= accessCount ->
  exists indices,
    generate_from rd itemCount accessCount = Some indices /\
    valid_workload itemCount indices /\
    Z.of_nat (length indices) = accessCount.
Proof.
  intros Hic Hac. unfold generate_from.
  destruct (generate_Some itemCount accessCount (rd 0%nat))
    as (indices & Hgen & Hlen & Hval).
  exists indices. split; [assumption|]. split; [|lia].
  apply Forall_lookup. intros i v Hi. specialize (Hval i v Hi).
  assert (wrap (itemCount - 1) <= itemCount - 1).
  { unfold wrap. apply Z.mod_le; [lia|]. pose proof SIZE_MAX_pos. lia. }
  lia.
Qed.







End MainFacts.

Section MainTheorems.
Import SizeT Allocator Loop Workload Timer Main.








End MainTheorems.

(** ** The generation and what can make it fail *)

Section GenerationTheorems.
Import SizeT Loop Workload Main Generation.

Lemma construct_indices_None (env : Env) (accessCount : Z) :
  construct_indices env accessCount = None
  <-> accessCount <= vector_max_size env /\
      (0 < accessCount -> new_avail env (accessCount * sizeof_size_t) = true).
Proof.
  unfold construct_indices.
  destruct (Z.gtb_spec accessCount (vector_max_size env)).
  - split; [discriminate | lia].
  - destruct (Z.ltb_spec 0 accessCount); simpl.
    + destruct (new_avail env (accessCount * sizeof_size_t)); simpl.
      * split; [intros _; split; [lia | reflexivity] | reflexivity].
      * split; [discriminate | intros [_ Hn]; specialize (Hn ltac:(lia));
                                discriminate].
    + split; [intros _; split; lia | reflexivity].
Qed.

(** C7, as the code has it.  For every [itemCount >= 1] the generation
    yields its workload, [accessCount] indices within [[0, itemCount)],
    exactly when the vector can be constructed and the entropy source is
    available; in every other case one of the three library exceptions
    leaves it.  The size of the domain is not looked at: whether an
    exception leaves the generation, and which one, is the same for every
    item count, zero included. *)
Theorem generation_fails_iff {G : Type} `{UniformSource G} (env : Env)
    (itemCount accessCount : Z) :
  1 <= itemCount -> 0 <= accessCount ->
  ((exists indices,
      generate_in env itemCount accessCount = Generated indices /\
      Z.of_nat (length indices) = accessCount /\
      valid_workload itemCount indices)
   <-> serves env accessCount) /\
  (~ serves env accessCount ->
   exists e, generate_in env itemCount accessCount = Threw e /\
     match e with
     | vector_length_error => vector_max_size env < accessCount
     | vector_bad_alloc =>
         0 < accessCount /\
         new_avail env (accessCount * sizeof_size_t) = false
     | random_device_error => entropy env = None
     end) /\
  (forall (itemCount' : Z) (e : failure),
     generate_in env itemCount' accessCount = Threw e
     <-> generate_in env itemCount accessCount = Threw e).
Proof.
  intros Hic Hac.
  assert (Hindep : forall (itemCount' : Z) (e : failure),
             generate_in env itemCount' accessCount = Threw e
             <-> generate_in env itemCount accessCount = Threw e).
  { intros itemCount' e. unfold generate_in.
    destruct (construct_indices env accessCount); [reflexivity|].
    destruct (entropy env) as [rd|]; [|reflexivity].
    destruct (generate_from rd itemCount' accessCount);
      destruct (generate_from rd itemCount accessCount);
      split; discriminate. }
  apply (proj1 (Init.Logic.and_assoc _ _ _)). split; [|exact Hindep].
  clear Hindep.
  unfold serves, generate_in.
  pose proof (construct_indices_None env accessCount) as Hcons.
  destruct (construct_indices env accessCount) as [e|] eqn:Hc.
  - assert (Hno : ~ (accessCount <= vector_max_size env /\
                     (0 < accessCount ->
                      new_avail env (accessCount * sizeof_size_t) = true))).
    { intros Hok. apply Hcons in Hok. discriminate. }
    split.
    + split; [intros (? & [=] & _) | intros (? & ? & _); tauto].
    + intros _. exists e. split; [reflexivity|].
      unfold construct_indices in Hc.
      destruct (Z.gtb_spec accessCount (vector_max_size env));
        [injection Hc as <-; lia|].
      destruct (Z.ltb_spec 0 accessCount); simpl in Hc; [|discriminate].
      destruct (new_avail env (accessCount * sizeof_size_t)); simpl in Hc;
        [discriminate|]. injection Hc as <-. split; [lia | reflexivity].
  - destruct (proj1 Hcons eq_refl) as [Hmax Hnew].
    destruct (entropy env) as [rd|].
    + destruct (generate_from_valid rd itemCount accessCount Hic Hac)
        as (indices & -> & Hvalid & Hlen).
      split.
      * split; [intros _; split; [|split]; auto; eexists; reflexivity|].
        intros _. exists indices. auto.
      * intros Hno. exfalso. apply Hno.
        split; [|split]; auto; eexists; reflexivity.
    + split.
      * split; [intros (? & [=] & _) | intros (_ & _ & [? [=]])].
      * intros _. exists random_device_error. split; reflexivity.
Qed.

Lemma generation_fails_iff_witness :
  ((exists indices,
      generate_in (G := Z) roomy_env 8 4 = Generated indices /\
      Z.of_nat (length indices) = 4 /\
      valid_workload 8 indices)
   <-> serves roomy_env 4) /\
  (~ serves roomy_env 4 ->
   exists e, generate_in (G := Z) roomy_env 8 4 = Threw e /\
     match e with
     | vector_length_error => vector_max_size roomy_env < 4
     | vector_bad_alloc =>
         0 < 4 /\ new_avail roomy_env (4 * sizeof_size_t) = false
     | random_device_error => entropy roomy_env = None
     end) /\
  (forall (itemCount' : Z) (e : failure),
     generate_in (G := Z) roomy_env itemCount' 4 = Threw e
     <-> generate_in (G := Z) roomy_env 8 4 = Threw e).
Proof. apply (generation_fails_iff (G := Z) roomy_env 8 4); lia. Defined.

(** C7, as the specification has it, fails both ways: with [itemCount = 0]
    the generation is not rejected and yields a workload, and with
    [itemCount = 1] it fails when the count of accesses is above what a vector
    can hold. *)
Lemma generation_ignores_domain_size :
  (exists indices, generate_in (G := Z) roomy_env 0 2 = Generated indices) /\
  generate_in (G := Z) roomy_env 1 (2 ^ 60) = Threw vector_length_error.
Proof.
  split; [|reflexivity]. eexists. vm_compute. reflexivity.
Qed.

(** C8.  Two runs of the generation with the same item count and access
    count, in environments that may differ in everything but the seed the
    entropy source yields, fill [indices] with the same sequence: entry [i] is
    the value of call number [i] of the distribution over
    [[0, ITEM_COUNT - 1]] on the engine seeded with that seed. *)
Theorem generation_determined_by_seed {G : Type} `{UniformSource G}
    (env1 env2 : Env) (rd1 rd2 : random_device)
    (itemCount accessCount seed : Z) :
  entropy env1 = Some rd1 -> entropy env2 = Some rd2 ->
  rd1 0%nat = seed -> rd2 0%nat = seed ->
  construct_indices env1 accessCount = None ->
  construct_indices env2 accessCount = None ->
  exists indices,
    generate_in env1 itemCount accessCount = Generated indices /\
    generate_in env2 itemCount accessCount = Generated indices /\
    indices = draws 0 (wrap (itemCount - 1)) (Z.to_nat accessCount)
                (seed_engine seed).
Proof.
  intros He1 He2 Hs1 Hs2 Hc1 Hc2. unfold generate_in.
  rewrite Hc1, Hc2, He1, He2. unfold generate_from, generate.
  rewrite Hs1, Hs2. pose proof (wrap_range (itemCount - 1)) as Hb.
  destruct (Z.leb_spec 0 (wrap (itemCount - 1))); [|lia].
  eexists. split; [reflexivity|]. split; [reflexivity|].
  apply fill_all_draws.
Qed.

Lemma generation_determined_by_seed_witness :
  exists indices,
    generate_in (G := Z) roomy_env 8 4 = Generated indices /\
    generate_in (G := Z) narrow_env 8 4 = Generated indices /\
    indices = draws 0 (wrap (8 - 1)) (Z.to_nat 4) (seed_engine 7).
Proof.
  apply (generation_determined_by_seed (G := Z) roomy_env narrow_env
           (fun k => 7 + Z.of_nat k) (fun k => 7 - 3 * Z.of_nat k) 8 4 7);
    reflexivity.
Defined.
End GenerationTheorems.
